(** * png_to_mc_pixelart: image to Minecraft [setblock] commands

    A shallow embedding of [png_to_mc_pixelart.py] and the properties of
    its quantizer, command emitter and preview renderer.

    Conventions of the embedding:
    - NumPy fixed-width integers are [Z] with the wrap-around written out
      ([wrap]); RGB pixels of a PIL image in mode "RGB" are triples of
      bytes.
    - 2-D arrays ([pixels], [mapped_idxs], PIL images) are a shape together
      with an index function, updated cell by cell as the source does.
    - Exceptions are values of [exn]; a computation is a [result].
    - The file system is a finite map from paths to file contents, the
      console a list of printed lines; every path can be opened for
      writing and memory is unbounded.
    - What Pillow alone decides, the pixels of a LANCZOS resize and the
      file format of a saved image, is a [pillow] that the program is
      given; decoding the input and flattening it onto white (lines
      92-95) yield the image that [main] starts from. *)

From Stdlib Require Import ZArith Lia Ascii String DecimalString DecimalPos DecimalZ.
From Stdlib Require Strings.Byte Floats.SpecFloat.
From stdpp Require Import base list gmap strings.

Local Open Scope Z_scope.

(** ** Exceptions and results *)

Inductive exn : Type :=
  | ValueError (msg : string)
  | ZeroDivisionError
  | OverflowError
  | IndexError
  | SystemExit (msg : string).

Inductive result (A : Type) : Type :=
  | Ok (a : A)
  | Raise (e : exn).
Arguments Ok {A} a.
Arguments Raise {A} e.

#[global] Instance result_ret : MRet result := fun A a => Ok a.

#[global] Instance result_bind : MBind result := fun A B k r =>
  match r with
  | Ok a => k a
  | Raise e => Raise e
  end.

(** ** NumPy integers *)

Module Np.

(** A two's complement integer of [bits] bits holding [z]. *)
Definition wrap (bits z : Z) : Z :=
  (z + 2 ^ (bits - 1)) mod 2 ^ bits - 2 ^ (bits - 1).

Definition int16 : Z -> Z := wrap 16.
Definition int32 : Z -> Z := wrap 32.

(** The default integer [np.int_] that [np.sum] accumulates narrower
    integers in: 64 bits (32 bits on Windows before NumPy 2). *)
Definition intp_bits : Z := 64.

(** [np.sum] over the last axis of one row, accumulated in an integer of
    [acc] bits. *)
Definition sum (acc : Z) (l : list Z) : Z :=
  fold_left (fun s x => wrap acc (s + x)) l 0.

(** The smallest element of [x :: l]. *)
Definition amin (x : Z) (l : list Z) : Z := fold_left Z.min l x.

(** The position of the first element equal to [m]. *)
Fixpoint first_index (m : Z) (l : list Z) : nat :=
  match l with
  | [] => O
  | x :: t => if x =? m then O else S (first_index m t)
  end.

(** [np.argmin]: the index of the minimum; "in case of multiple occurrences
    of the minimum values, the indices corresponding to the first
    occurrence are returned". An empty sequence raises [ValueError]. *)
Definition argmin (l : list Z) : result nat :=
  match l with
  | [] => Raise (ValueError "attempt to get argmin of an empty sequence")
  | x :: t => Ok (first_index (amin x t) l)
  end.

End Np.

(** ** Colors and palettes *)

Definition rgb : Type := Z * Z * Z.

Definition CONCRETE_PALETTE : list (string * rgb) :=
  [ ("white",      (209, 213, 214));
    ("orange",     (240, 118, 19));
    ("magenta",    (189, 68, 179));
    ("light_blue", (58, 175, 217));
    ("yellow",     (249, 198, 39));
    ("lime",       (112, 185, 25));
    ("pink",       (237, 141, 172));
    ("gray",       (62, 68, 71));
    ("light_gray", (142, 142, 134));
    ("cyan",       (21, 137, 142));
    ("purple",     (121, 42, 172));
    ("blue",       (53, 57, 157));
    ("brown",      (100, 58, 36));
    ("green",      (73, 91, 36));
    ("red",        (161, 39, 34));
    ("black",      (20, 21, 25)) ]%string.

Definition WOOL_PALETTE : list (string * rgb) :=
  [ ("white",      (234, 236, 237));
    ("orange",     (241, 118, 20));
    ("magenta",    (238, 77, 201));
    ("light_blue", (128, 199, 248));
    ("yellow",     (250, 198, 39));
    ("lime",       (112, 185, 25));
    ("pink",       (242, 141, 170));
    ("gray",       (57, 57, 57));
    ("light_gray", (151, 151, 151));
    ("cyan",       (20, 137, 140));
    ("purple",     (107, 50, 168));
    ("blue",       (44, 46, 143));
    ("brown",      (96, 59, 31));
    ("green",      (73, 91, 36));
    ("red",        (176, 46, 38));
    ("black",      (12, 12, 12)) ]%string.

(** The keys of [PALETTES], the choices of [--blocktype]. *)
Inductive blocktype : Type := concrete | wool.

Definition PALETTES (b : blocktype) : list (string * rgb) :=
  match b with
  | concrete => CONCRETE_PALETTE
  | wool => WOOL_PALETTE
  end.

Definition blocktype_name (b : blocktype) : string :=
  match b with
  | concrete => "concrete"
  | wool => "wool"
  end.

(** ** The quantizer *)

Definition map3 (f : Z -> Z) (c : rgb) : rgb :=
  let '(r, g, b) := c in (f r, f g, f b).

(** [palette_arr - np.array(rgb, dtype=np.int16)]: an int16 subtraction
    per channel, broadcast over the rows of the palette. *)
Definition diffs (rgb0 : rgb) (palette_arr : list rgb) : list rgb :=
  let '(r, g, b) := map3 Np.int16 rgb0 in
  map (fun c : rgb =>
         let '(cr, cg, cb) := c in
         (Np.int16 (cr - r), Np.int16 (cg - g), Np.int16 (cb - b)))
      palette_arr.

(** [np.sum(diffs.astype(np.int32) ** 2, axis=1)], summed in [acc] bits. *)
Definition dists_acc (acc : Z) (rgb0 : rgb) (palette_arr : list rgb) : list Z :=
  map (fun d : rgb =>
         let '(dr, dg, db) := map3 Np.int32 d in
         Np.sum acc [Np.int32 (dr * dr); Np.int32 (dg * dg); Np.int32 (db * db)])
      (diffs rgb0 palette_arr).

Definition nearest_color_acc (acc : Z) (rgb0 : rgb) (palette_arr : list rgb)
  : result nat :=
  Np.argmin (dists_acc acc rgb0 palette_arr).

Definition dists : rgb -> list rgb -> list Z := dists_acc Np.intp_bits.

Definition nearest_color : rgb -> list rgb -> result nat :=
  nearest_color_acc Np.intp_bits.

(** *** The quantizer as the specification words it *)

(** Squared Euclidean distance in RGB space, on unbounded integers. *)
Definition sq_dist (p c : rgb) : Z :=
  let '(pr, pg, pb) := p in
  let '(cr, cg, cb) := c in
  (cr - pr) ^ 2 + (cg - pg) ^ 2 + (cb - pb) ^ 2.

(** Scanning in order and keeping the first minimum found: [best_i] is the
    index kept so far, [best] its distance, [i] the index of the head of
    the entries still to scan. *)
Fixpoint scan_from (p : rgb) (best_i : nat) (best : Z) (i : nat)
    (rest : list rgb) : nat :=
  match rest with
  | [] => best_i
  | c :: t =>
      if sq_dist p c <? best
      then scan_from p i (sq_dist p c) (S i) t
      else scan_from p best_i best (S i) t
  end.

Definition sequential_scan (p : rgb) (palette : list rgb) : option nat :=
  match palette with
  | [] => None
  | c :: t => Some (scan_from p O (sq_dist p c) 1%nat t)
  end.

(** Three 8-bit unsigned channels. *)
Definition is_rgb (c : rgb) : Prop :=
  let '(r, g, b) := c in
  (0 <= r <= 255) /\ (0 <= g <= 255) /\ (0 <= b <= 255).

(** ** Text formatting *)

(** [str(z)] for a Python [int]: the decimal digits, with a leading minus
    sign for a negative number. *)
Definition str (z : Z) : string := NilZero.string_of_int (Z.to_int z).

Definition offset_token (offset : Z) : string :=
  if offset =? 0 then "~" else "~" +:+ str offset.

Definition build_setblock_cmd (xoff y zoff : Z) (block_fullname : string)
  : string :=
  "setblock " +:+ offset_token xoff +:+ " " +:+ str y +:+ " "
    +:+ offset_token zoff +:+ " " +:+ block_fullname +:+ " replace".

(** ** Binary64 arithmetic of [int / int] and [round]

    Python's true division of two integers is the exact quotient rounded
    once to the nearest double, ties to even; [round] of a double is the
    nearest integer, ties to even. A finite double is kept as
    [mant * 2 ^ expo]. *)

Module Float.

Record float : Type := { mant : Z; expo : Z }.

(** [a / b] rounded to the nearest integer, ties to even ([0 < b]). *)
Definition rne_div (a b : Z) : Z :=
  let q := a / b in
  let r := a mod b in
  if 2 * r <? b then q
  else if b <? 2 * r then q + 1
  else if Z.even q then q else q + 1.

(** The exponent [e] of the quotient [a / d] of two positive integers:
    [2 ^ 52 <= a / d / 2 ^ e < 2 ^ 53], and not below the exponent
    [-1074] of the subnormal numbers. *)
Definition quotient_expo (a d : Z) : Z :=
  let k := Z.log2 a - Z.log2 d in
  let below := if 0 <=? k then a <? d * 2 ^ k else a * 2 ^ (- k) <? d in
  Z.max (if below then k - 53 else k - 52) (-1074).

(** [n / d] for Python integers. *)
Definition true_divide (n d : Z) : result float :=
  if d =? 0 then Raise ZeroDivisionError
  else
    let '(n, d) := if d <? 0 then (- n, - d) else (n, d) in
    if n =? 0 then Ok {| mant := 0; expo := 0 |}
    else
      let e := quotient_expo (Z.abs n) d in
      let m := if 0 <=? e then rne_div n (d * 2 ^ e)
               else rne_div (n * 2 ^ (- e)) d in
      if (971 <? e) || ((e =? 971) && (2 ^ 53 <=? Z.abs m))
      then Raise OverflowError
      else Ok {| mant := m; expo := e |}.

(** [round(x)] with one argument: an [int]. *)
Definition round (x : float) : Z :=
  if 0 <=? expo x then mant x * 2 ^ expo x
  else rne_div (mant x) (2 ^ (- expo x)).

End Float.

(** The double that the integer [n] converts to. *)
Definition binary64_of_Z (n : Z) : SpecFloat.spec_float :=
  SpecFloat.binary_normalize 53 1024 n 0 false.

(** [x] and the IEEE 754 number [f] have the same value. *)
Definition same_value (x : Float.float) (f : SpecFloat.spec_float) : bool :=
  match f with
  | SpecFloat.S754_zero _ => Float.mant x =? 0
  | SpecFloat.S754_finite s m e =>
      let v := if s then - Z.pos m else Z.pos m in
      let e0 := Z.min e (Float.expo x) in
      v * 2 ^ (e - e0) =? Float.mant x * 2 ^ (Float.expo x - e0)
  | _ => false
  end.

(** [Float.true_divide n d] is the binary64 quotient of the doubles of [n]
    and [d], as the Standard Library specifies IEEE 754 division. *)
Definition agrees_with_SFdiv (n d : Z) : bool :=
  match Float.true_divide n d with
  | Ok x =>
      same_value x
        (SpecFloat.SFdiv 53 1024 (binary64_of_Z n) (binary64_of_Z d))
  | Raise _ => false
  end.

(** The rounding of the exact quotient [n / d] to the nearest integer, ties
    to even. *)
Definition round_half_even (n d : Z) : Z := Float.rne_div n d.

(** ** Images and arrays *)

(** A pixel of an image in mode "RGB": three 8-bit channels. *)
Definition pixel : Type := Byte.byte * Byte.byte * Byte.byte.

Definition u8 (b : Byte.byte) : Z := Z.of_N (Byte.to_N b).

Definition rgb_of_pixel (p : pixel) : rgb :=
  let '(r, g, b) := p in (u8 r, u8 g, u8 b).

(** An integer stored into an 8-bit channel, clipped to [0, 255]. *)
Definition clip8 (z : Z) : Byte.byte :=
  match Byte.of_N (Z.to_N (Z.min 255 (Z.max 0 z))) with
  | Some b => b
  | None => Byte.x00
  end.

Definition pixel_of_rgb (c : rgb) : pixel :=
  let '(r, g, b) := c in (clip8 r, clip8 g, clip8 b).

(** A PIL image: [size = (width, height)], [getpixel x y]. *)
Record image : Type := {
  width : nat;
  height : nat;
  getpixel : nat -> nat -> pixel
}.

(** An image that a file decodes to has at least one pixel. *)
Definition image_ok (im : image) : Prop :=
  (0 < width im)%nat /\ (0 < height im)%nat.

(** A 2-D NumPy array: [shape = (shape0, shape1)], [item y x]. *)
Record ndarray (A : Type) : Type := {
  shape0 : nat;
  shape1 : nat;
  item : nat -> nat -> A
}.
Arguments shape0 {A} _.
Arguments shape1 {A} _.
Arguments item {A} _ _ _.

(** [np.array(im)]: rows first. *)
Definition np_array (im : image) : ndarray pixel :=
  {| shape0 := height im; shape1 := width im;
     item := fun y x => getpixel im x y |}.

(** [np.zeros((H, W), dtype=np.int32)]. *)
Definition np_zeros (H W : nat) : ndarray Z :=
  {| shape0 := H; shape1 := W; item := fun _ _ => 0 |}.

(** [a[y, x] = v] on an int32 array. *)
Definition setitem (a : ndarray Z) (y x : nat) (v : Z) : ndarray Z :=
  {| shape0 := shape0 a; shape1 := shape1 a;
     item := fun y' x' =>
       if (y' =? y)%nat && (x' =? x)%nat then Np.int32 v else item a y' x' |}.

(** [l[i]] for a Python list or the first axis of an array: a negative
    index counts from the end. *)
Definition getitem {A : Type} (l : list A) (i : Z) : result A :=
  let n := Z.of_nat (length l) in
  let j := if i <? 0 then i + n else i in
  if (0 <=? j) && (j <? n)
  then match l !! Z.to_nat j with
       | Some a => Ok a
       | None => Raise IndexError
       end
  else Raise IndexError.

(** [Image.new("RGB", (W, H))]: black. *)
Definition image_new (W H : nat) : image :=
  {| width := W; height := H;
     getpixel := fun _ _ => (Byte.x00, Byte.x00, Byte.x00) |}.

Definition putpixel (im : image) (x y : nat) (color : rgb) : image :=
  {| width := width im; height := height im;
     getpixel := fun x' y' =>
       if (x' =? x)%nat && (y' =? y)%nat then pixel_of_rgb color
       else getpixel im x' y' |}.

(** The resampling filters of [Image.resize] that the program uses. The
    pixels of a LANCZOS resize are left to a [resampler]: the pixel at
    [(x, y)] of the image resized to [(xsize, ysize)]. *)
Inductive filter : Type := LANCZOS | NEAREST.

Definition resampler : Type := image -> nat -> nat -> nat -> nat -> pixel.

(** A file format of [Image.save], given by the bitmap that reading the
    written file back yields. *)
Definition codec : Type := image -> image.

(** What the program leaves to Pillow: the pixels of a LANCZOS resize, and
    the format that [Image.save] picks from the extension of a path, if it
    knows one. *)
Record pillow : Type := {
  lanczos : resampler;
  save_format : string -> option codec
}.


(** The source coordinate that NEAREST reads for the output coordinate [x]:
    the pixel under the center of the output pixel. *)
Definition nearest_src (x n_in n_out : nat) : nat :=
  ((2 * x + 1) * n_in / (2 * n_out))%nat.

(** [im.resize(size, resample)]: a copy when the size is unchanged, a
    [ValueError] from the resizing core when a side is below 1. *)
Definition resize (pil : pillow) (im : image) (size : Z * Z)
    (resample : filter) : result image :=
  let '(xsize, ysize) := size in
  if (xsize =? Z.of_nat (width im)) && (ysize =? Z.of_nat (height im))
  then Ok im
  else if (xsize <? 1) || (ysize <? 1)
  then Raise (ValueError "height and width must be > 0")
  else
    let xs := Z.to_nat xsize in
    let ys := Z.to_nat ysize in
    Ok {| width := xs; height := ys;
          getpixel :=
            match resample with
            | LANCZOS => lanczos pil im xs ys
            | NEAREST => fun x y =>
                getpixel im (nearest_src x (width im) xs)
                            (nearest_src y (height im) ys)
            end |}.

(** ** The program *)

(** The parsed command line. *)
Module Args.
Record t : Type := {
  infile : string;
  width : Z;
  out : string;
  startx : Z;
  starty : Z;
  startz : Z;
  blocktype : blocktype;
  flipy : bool;
  preview : option string;
  max_commands : Z
}.
End Args.

Inductive file : Type :=
  | TextFile (content : string)
  | ImageFile (im : image).

Record world : Type := {
  files : gmap string file;
  stdout : list string
}.

Definition print (line : string) (w : world) : world :=
  {| files := files w; stdout := stdout w ++ [line] |}.

Definition nl : string := String "010"%char EmptyString.

(** [for i in range(n): s = body(i, s)], stopping at the first exception. *)
Definition for_range {St : Type} (n : nat) (body : nat -> St -> result St)
    (s : St) : result St :=
  fold_left (fun acc i => s' ← acc; body i s') (seq 0 n) (Ok s).

(** [palette[n]] on the dictionary literal. *)
Fixpoint dict_get (palette : list (string * rgb)) (n : string) : rgb :=
  match palette with
  | [] => (0, 0, 0)
  | (k, v) :: t => if String.eqb k n then v else dict_get t n
  end.

Definition palette_names (b : blocktype) : list string :=
  map fst (PALETTES b).

(** [np.array([palette[n] for n in palette_names], dtype=np.int16)]. *)
Definition palette_colors (b : blocktype) : list rgb :=
  map (fun n => map3 Np.int16 (dict_get (PALETTES b) n)) (palette_names b).

(** Lines 98-100: [target_h]. *)
Definition target_h (args : Args.t) (im : image) : result Z :=
  let w0 := Z.of_nat (width im) in
  let h0 := Z.of_nat (height im) in
  let target_w := Args.width args in
  q ← Float.true_divide (target_w * h0) w0;
  Ok (Float.round q).

(** Lines 98-101: [im_small]. *)
Definition normalize (pil : pillow) (args : Args.t) (im : image)
  : result image :=
  h ← target_h args im;
  resize pil im (Args.width args, h) LANCZOS.

(** Lines 112-121: [mapped_idxs]. *)
Definition quantize (pixels : ndarray pixel) (colors : list rgb)
  : result (ndarray Z) :=
  let H := shape0 pixels in
  let W := shape1 pixels in
  for_range H (fun y mapped =>
    for_range W (fun x mapped =>
      idx ← nearest_color (rgb_of_pixel (item pixels y x)) colors;
      Ok (setitem mapped y x (Z.of_nat idx))) mapped)
    (np_zeros H W).

(** Lines 128-139: the command of one cell. *)
Definition cell_command (args : Args.t) (H : nat) (names : list string)
    (mapped : ndarray Z) (row_idx col_idx : nat) : result string :=
  let y := Args.starty args in
  let z_offset_row :=
    if Args.flipy args then Z.of_nat row_idx
    else Z.of_nat H - 1 - Z.of_nat row_idx in
  let palette_idx := item mapped row_idx col_idx in
  block_color_name ← getitem names palette_idx;
  let block_fullname :=
    "minecraft:" +:+ block_color_name +:+ "_"
      +:+ blocktype_name (Args.blocktype args) in
  let xoff := Args.startx args + Z.of_nat col_idx in
  let zoff := Args.startz args + z_offset_row in
  Ok (build_setblock_cmd xoff y zoff block_fullname).

Definition limit_message (args : Args.t) : string :=
  "Aborting: command count exceeded max-commands ("
    +:+ str (Args.max_commands args) +:+ ").".

(** Lines 124-143: [commands]. *)
Definition build_commands (args : Args.t) (names : list string)
    (mapped : ndarray Z) : result (list string) :=
  let H := shape0 mapped in
  let W := shape1 mapped in
  for_range H (fun row_idx commands =>
    for_range W (fun col_idx commands =>
      cmd ← cell_command args H names mapped row_idx col_idx;
      let commands := commands ++ [cmd] in
      if Args.max_commands args <? Z.of_nat (length commands)
      then Raise (SystemExit (limit_message args))
      else Ok commands) commands)
    [].

(** The text that the writes of [make_mcfunction] leave in the file. *)
Definition written (commands : list string) : string :=
  fold_left (fun f cmd => f +:+ (cmd +:+ nl)) commands EmptyString.

Definition make_mcfunction (commands : list string) (out_path : string)
    (w : world) : world :=
  print ("Saved " +:+ str (Z.of_nat (length commands)) +:+ " commands to "
           +:+ out_path)
    {| files := <[out_path := TextFile (written commands)]> (files w);
       stdout := stdout w |}.

(** Lines 149-153: the preview before it is enlarged. *)
Definition paint_preview (mapped : ndarray Z) (colors : list rgb)
  : result image :=
  let H := shape0 mapped in
  let W := shape1 mapped in
  for_range H (fun y preview =>
    for_range W (fun x preview =>
      color ← getitem colors (item mapped y x);
      Ok (putpixel preview x y color)) preview)
    (image_new W H).

(** Lines 149-154. *)
Definition render_preview (pil : pillow) (mapped : ndarray Z)
    (colors : list rgb) : result image :=
  let H := shape0 mapped in
  let W := shape1 mapped in
  preview ← paint_preview mapped colors;
  resize pil preview (Z.of_nat W * 8, Z.of_nat H * 8) NEAREST.

(** The truth value of [args.preview]: neither [None] nor empty. *)
Definition preview_path (args : Args.t) : option string :=
  match Args.preview args with
  | Some p => if String.eqb p EmptyString then None else Some p
  | None => None
  end.

Definition usage_hints : list string :=
  [ "Done. To use the .mcfunction file:";
    "  - Place it in a datapack functions folder (e.g. datapacks/<pack>/data/<namespace>/functions/<name>.mcfunction)";
    "  - Run in-game with: /function <namespace>:<name>";
    "Or open the .mcfunction in a command block chain or paste into console (beware very large commands lists)." ]%string.

(** Everything that [main] computes before it opens a file. *)
Record computed : Type := {
  im_small : image;
  mapped_idxs : ndarray Z;
  commands : list string
}.

Definition compute (pil : pillow) (args : Args.t) (im : image)
  : result computed :=
  small ← normalize pil args im;
  mapped ← quantize (np_array small) (palette_colors (Args.blocktype args));
  cmds ← build_commands args (palette_names (Args.blocktype args)) mapped;
  Ok {| im_small := small; mapped_idxs := mapped; commands := cmds |}.

(** [preview.save(path)]: a [ValueError] when the extension names no
    format, before the file is opened. *)
Definition save (pil : pillow) (preview : image) (path : string) (w : world)
  : result world :=
  match save_format pil path with
  | None => Raise (ValueError "unknown file extension")
  | Some format =>
      Ok {| files := <[path := ImageFile (format preview)]> (files w);
            stdout := stdout w |}
  end.

(** [main], from line 97 on; [im] is the image in mode "RGB" that lines
    92-95 decode and flatten onto white. The result is the world it leaves
    and how it ends. *)
Definition main (pil : pillow) (args : Args.t) (im : image) (w : world)
  : world * result unit :=
  match compute pil args im with
  | Raise e => (w, Raise e)
  | Ok c =>
      let w := make_mcfunction (commands c) (Args.out args) w in
      let saved :=
        match preview_path args with
        | None => Ok w
        | Some path =>
            preview ← render_preview pil (mapped_idxs c)
                        (palette_colors (Args.blocktype args));
            w ← save pil preview path w;
            Ok (print ("Saved preview: " +:+ path) w)
        end in
      match saved with
      | Raise e => (w, Raise e)
      | Ok w => (fold_left (fun w line => print line w) usage_hints w, Ok ())
      end
  end.



(** ** Vocabulary of the statements *)

(** [i] is the position of the first minimum of [ds]. *)
Definition first_min_at (ds : list Z) (i : nat) : Prop :=
  exists m, ds !! i = Some m
    /\ (forall j y, ds !! j = Some y -> m <= y)
    /\ (forall j y, ds !! j = Some y -> (j < i)%nat -> m < y).

(** The text of the command of the cell [(row_idx, col_idx)]. *)
Definition cell_text (args : Args.t) (names : list string)
    (mapped : ndarray Z) (row_idx col_idx : nat) : string :=
  match cell_command args (shape0 mapped) names mapped row_idx col_idx with
  | Ok cmd => cmd
  | Raise _ => EmptyString
  end.

(** The commands of all cells in row-major order: row by row, and by
    column inside a row. *)
Definition row_major (args : Args.t) (names : list string)
    (mapped : ndarray Z) : list string :=
  flat_map (fun row_idx =>
              map (cell_text args names mapped row_idx)
                  (seq 0 (shape1 mapped)))
           (seq 0 (shape0 mapped)).

(** Every cell of [mapped] holds an index of [names]. *)
Definition cells_named (names : list string) (mapped : ndarray Z) : Prop :=
  forall y x, (y < shape0 mapped)%nat -> (x < shape1 mapped)%nat ->
    exists name, getitem names (item mapped y x) = Ok name.

(** One command per line: every command followed by a newline. *)
Fixpoint unlines (cmds : list string) : string :=
  match cmds with
  | [] => EmptyString
  | cmd :: t => cmd +:+ nl +:+ unlines t
  end.

(** Every cell of [mapped] holds an index of [colors]. *)
Definition cells_colored (colors : list rgb) (mapped : ndarray Z) : Prop :=
  forall y x, (y < shape0 mapped)%nat -> (x < shape1 mapped)%nat ->
    exists color, getitem colors (item mapped y x) = Ok color.

(** [pv] shows the cell [(y, x)] of [mapped] in the color [color]. *)
Definition shows (colors : list rgb) (mapped : ndarray Z) (pv : image)
    (x y : nat) (y0 x0 : nat) : Prop :=
  exists color, getitem colors (item mapped y0 x0) = Ok color
    /\ getpixel pv x y = pixel_of_rgb color.

(** The fields of a line between single spaces, as [line.split(" ")]
    yields them. *)
Fixpoint split_spaces (s : string) : list string :=
  match s with
  | EmptyString => [EmptyString]
  | String c t =>
      if Ascii.eqb c " "%char then EmptyString :: split_spaces t
      else match split_spaces t with
           | [] => [String c EmptyString]
           | field :: fields => String c field :: fields
           end
  end.

(** No character of [s] is a space. *)
Fixpoint spaceless (s : string) : bool :=
  match s with
  | EmptyString => true
  | String c t => negb (Ascii.eqb c " "%char) && spaceless t
  end.

(** [args] with the flag [--flipy] set to [b]. *)
Definition with_flipy (b : bool) (args : Args.t) : Args.t :=
  {| Args.infile := Args.infile args;
     Args.width := Args.width args;
     Args.out := Args.out args;
     Args.startx := Args.startx args;
     Args.starty := Args.starty args;
     Args.startz := Args.startz args;
     Args.blocktype := Args.blocktype args;
     Args.flipy := b;
     Args.preview := Args.preview args;
     Args.max_commands := Args.max_commands args |}.

(** The error of a size that [Image.resize] refuses. *)
Definition InvalidDimension : exn :=
  ValueError "height and width must be > 0".

(** ** Sample runs *)

Definition white : pixel := (Byte.xff, Byte.xff, Byte.xff).
Definition near_black : pixel := (Byte.x14, Byte.x15, Byte.x19).

(** A resampler that reads the source pixel under the center of the output
    pixel. *)
Definition pick_center : resampler := fun im xs ys x y =>
  getpixel im (nearest_src x (width im) xs) (nearest_src y (height im) ys).

(** Every preview path is taken for a PNG. *)
Definition sample_pillow : pillow :=
  {| lanczos := pick_center; save_format := fun _ => Some (fun im => im) |}.

(** An image of 4 by 2 pixels: two white columns, two nearly black ones. *)
Definition sample_image : image :=
  {| width := 4; height := 2;
     getpixel := fun x _ => if (x <? 2)%nat then white else near_black |}.

(** The image of the end-to-end example: 2 by 1 pixels. *)
Definition two_pixels : image :=
  {| width := 2; height := 1;
     getpixel := fun x _ => if (x =? 0)%nat then white else near_black |}.

Definition sample_args : Args.t :=
  {| Args.infile := "input.png";
     Args.width := 2;
     Args.out := "pixelart.mcfunction";
     Args.startx := 0;
     Args.starty := 64;
     Args.startz := 0;
     Args.blocktype := concrete;
     Args.flipy := false;
     Args.preview := Some "preview.png"%string;
     Args.max_commands := 100000 |}.

(** The same command line with [--max-commands 1]. *)
Definition limited_args : Args.t :=
  {| Args.infile := "input.png";
     Args.width := 2;
     Args.out := "pixelart.mcfunction";
     Args.startx := 0;
     Args.starty := 64;
     Args.startz := 0;
     Args.blocktype := concrete;
     Args.flipy := false;
     Args.preview := Some "preview.png"%string;
     Args.max_commands := 1 |}.

Definition sample_world : world :=
  {| files := {["pixelart.mcfunction"%string := TextFile "old"]};
     stdout := [] |}.

(** The resized image of the sample run. *)
Definition sample_small : image :=
  match normalize sample_pillow sample_args sample_image with
  | Ok small => small
  | Raise _ => sample_image
  end.


(** ** Reading the output back *)

(** No character of [s] is [c]. *)
Fixpoint lacks (c : ascii) (s : string) : bool :=
  match s with
  | EmptyString => true
  | String a t => negb (Ascii.eqb a c) && lacks c t
  end.

Definition newline : ascii := "010"%char.

(** The decimal numeral [s] as an integer. *)
Definition parse_int (s : string) : option Z :=
  option_map Z.of_int (NilZero.int_of_string s).

(** The offset that a coordinate token stands for: ["~"] alone is 0,
    ["~"] and a numeral is the numeral. *)
Definition parse_offset_token (token : string) : option Z :=
  match token with
  | EmptyString => None
  | String c rest =>
      if Ascii.eqb c "~"%char
      then (if String.eqb rest EmptyString then Some 0 else parse_int rest)
      else None
  end.

(** The horizontal offset, the height, the depth offset and the block of a
    [setblock ... replace] command. *)
Definition parse_setblock (cmd : string) : option (Z * Z * Z * string) :=
  match split_spaces cmd with
  | [keyword; xtok; ytok; ztok; block; mode] =>
      if String.eqb keyword "setblock" && String.eqb mode "replace"
      then
        xoff ← parse_offset_token xtok;
        y ← parse_int ytok;
        zoff ← parse_offset_token ztok;
        Some (xoff, y, zoff, block)
      else None
  | _ => None
  end.

(** The lines of a text, each ended by a newline (the last one may lack
    it), as iterating over the file yields them without their ends. *)
Fixpoint read_lines (s : string) : list string :=
  match s with
  | EmptyString => []
  | String c t =>
      if Ascii.eqb c newline then EmptyString :: read_lines t
      else match read_lines t with
           | [] => [String c EmptyString]
           | line :: rest => String c line :: rest
           end
  end.

(** ** More sample runs *)



(** The sample command line with the width of the sample image. *)
Definition same_width_args : Args.t :=
  {| Args.infile := "input.png";
     Args.width := 4;
     Args.out := "pixelart.mcfunction";
     Args.startx := 0;
     Args.starty := 64;
     Args.startz := 0;
     Args.blocktype := concrete;
     Args.flipy := false;
     Args.preview := None;
     Args.max_commands := 100000 |}.

(** The sample command line with a width beyond the range of a double. *)
Definition huge_width_args : Args.t :=
  {| Args.infile := "input.png";
     Args.width := 2 ^ 1030;
     Args.out := "pixelart.mcfunction";
     Args.startx := 0;
     Args.starty := 64;
     Args.startz := 0;
     Args.blocktype := concrete;
     Args.flipy := false;
     Args.preview := None;
     Args.max_commands := 100000 |}.

(** ** Numerals and tokens, stated without [str] and [offset_token] *)

(** [numeral] is the decimal numeral of [z]: the Standard Library reads it
    as [z], and it is the only string that it reads so, digits without a
    leading zero after an optional minus sign. *)
Definition numeral_of (numeral : string) (z : Z) : Prop :=
  NilZero.int_of_string numeral = Some (Z.to_int z)
  /\ NilZero.string_of_int (Z.to_int z) = numeral
  /\ Z.of_int (Z.to_int z) = z.

(** [token] is the relative coordinate of [offset]: the marker alone for 0,
    the marker and the numeral of the offset otherwise. *)
Definition token_of (token : string) (offset : Z) : Prop :=
  (offset = 0 /\ token = "~")
  \/ (offset <> 0
      /\ exists numeral, token = "~" +:+ numeral /\ numeral_of numeral offset).

(** The name of a block family as [--blocktype] spells it. *)
Definition family_of (family : string) (b : blocktype) : Prop :=
  match b with
  | concrete => family = "concrete"
  | wool => family = "wool"
  end.

(** Three channels that an int16 holds. *)
Definition is_int16 (c : rgb) : Prop :=
  let '(r, g, b) := c in
  (-32768 <= r <= 32767) /\ (-32768 <= g <= 32767)
  /\ (-32768 <= b <= 32767).

(** ** Sample runs on other command lines *)

(** Offsets of both signs, and the flag [--flipy]. *)
Definition offset_args : Args.t :=
  {| Args.infile := "input.png";
     Args.width := 2;
     Args.out := "pixelart.mcfunction";
     Args.startx := -1;
     Args.starty := -60;
     Args.startz := 7;
     Args.blocktype := wool;
     Args.flipy := true;
     Args.preview := None;
     Args.max_commands := 100000 |}.



(** [--width 5]: on the sample image the exact height is 2.5. *)
Definition odd_width_args : Args.t :=
  {| Args.infile := "input.png";
     Args.width := 5;
     Args.out := "pixelart.mcfunction";
     Args.startx := 0;
     Args.starty := 64;
     Args.startz := 0;
     Args.blocktype := concrete;
     Args.flipy := false;
     Args.preview := None;
     Args.max_commands := 100000 |}.
(** * Properties *)

(** ** Fixed-width arithmetic *)

Lemma wrap_small (bits z : Z) :
  0 < bits -> - 2 ^ (bits - 1) <= z < 2 ^ (bits - 1) -> Np.wrap bits z = z.
Proof.
  intros Hb Hz. unfold Np.wrap.
  assert (Hp : 2 ^ bits = 2 * 2 ^ (bits - 1)).
  { rewrite <- Z.pow_succ_r by lia. f_equal. lia. }
  rewrite Z.mod_small by lia. lia.
Qed.

Lemma int16_small (z : Z) : -32768 <= z < 32768 -> Np.int16 z = z.
Proof. intros Hz. apply wrap_small; [lia|]. exact Hz. Qed.

Lemma int32_small (z : Z) : -2147483648 <= z < 2147483648 -> Np.int32 z = z.
Proof. intros Hz. apply wrap_small; [lia|]. exact Hz. Qed.

Lemma acc_small (acc z : Z) :
  32 <= acc -> -2147483648 <= z < 2147483648 -> Np.wrap acc z = z.
Proof.
  intros Ha Hz. apply wrap_small; [lia|].
  assert (2 ^ 31 <= 2 ^ (acc - 1)) by (apply Z.pow_le_mono_r; lia).
  change (2 ^ 31) with 2147483648 in *. lia.
Qed.

(** On 8-bit channels no step of the distance computation wraps around. *)
Lemma dist_exact (acc : Z) (p c : rgb) :
  32 <= acc -> is_rgb p -> is_rgb c ->
  dists_acc acc p [c] = [sq_dist p c].
Proof.
  intros Ha Hp Hc.
  destruct p as [[pr pg] pb], c as [[cr cg] cb].
  destruct Hp as (Hr & Hg & Hb), Hc as (Hr' & Hg' & Hb').
  unfold dists_acc, diffs, map3, sq_dist, Np.sum. simpl.
  rewrite !(int16_small pr), !(int16_small pg), !(int16_small pb) by lia.
  rewrite !(int16_small (_ - _)) by lia.
  rewrite !(int32_small (_ - _)) by lia.
  rewrite !(int32_small (_ * _)) by nia.
  rewrite (acc_small acc (0 + _)) by (auto; nia).
  rewrite (acc_small acc (0 + _ + _)) by (auto; nia).
  rewrite (acc_small acc) by (auto; nia).
  f_equal. ring.
Qed.

Lemma dists_acc_cons (acc : Z) (p c : rgb) (pal : list rgb) :
  dists_acc acc p (c :: pal) = dists_acc acc p [c] ++ dists_acc acc p pal.
Proof.
  unfold dists_acc, diffs. destruct (map3 Np.int16 p) as [[r g] b].
  reflexivity.
Qed.

Lemma dists_exact (acc : Z) (p : rgb) (pal : list rgb) :
  32 <= acc -> is_rgb p -> Forall is_rgb pal ->
  dists_acc acc p pal = map (sq_dist p) pal.
Proof.
  intros Ha Hp Hpal. induction Hpal as [|c pal Hc _ IH].
  - unfold dists_acc, diffs. destruct (map3 Np.int16 p) as [[r g] b].
    reflexivity.
  - rewrite dists_acc_cons, dist_exact, IH by assumption. reflexivity.
Qed.

(** ** [np.argmin] *)

Lemma amin_le (l : list Z) (x : Z) : Np.amin x l <= x.
Proof.
  unfold Np.amin. revert x. induction l as [|y l IH]; intros x; simpl; [lia|].
  specialize (IH (Z.min x y)). lia.
Qed.

Lemma amin_lower (l : list Z) (x y : Z) : In y l -> Np.amin x l <= y.
Proof.
  unfold Np.amin. revert x. induction l as [|z l IH]; intros x Hy; simpl.
  - destruct Hy.
  - destruct Hy as [->|Hy].
    + pose proof (amin_le l (Z.min x y)) as H. unfold Np.amin in H. lia.
    + apply IH. exact Hy.
Qed.

Lemma amin_in (l : list Z) (x : Z) : In (Np.amin x l) (x :: l).
Proof.
  unfold Np.amin. revert x. induction l as [|y l IH]; intros x; simpl.
  - left. reflexivity.
  - specialize (IH (Z.min x y)).
    remember (fold_left Z.min l (Z.min x y)) as r eqn:Er. clear Er.
    destruct IH as [H|H]; [|right; right; exact H].
    destruct (Z.min_spec x y) as [[_ E]|[_ E]]; [left|right; left]; congruence.
Qed.

Lemma first_index_lookup (m : Z) (l : list Z) :
  In m l -> l !! Np.first_index m l = Some m.
Proof.
  induction l as [|x l IH]; intros Hin; [destruct Hin|].
  simpl. destruct (Z.eqb_spec x m) as [->|Hne]; [reflexivity|].
  destruct Hin as [E|Hin]; [congruence|]. simpl. apply IH. exact Hin.
Qed.

Lemma first_index_before (m : Z) (l : list Z) (j : nat) (y : Z) :
  l !! j = Some y -> (j < Np.first_index m l)%nat -> y <> m.
Proof.
  revert j. induction l as [|x l IH]; intros j Hj Hlt; [discriminate|].
  simpl in Hlt. destruct (Z.eqb_spec x m) as [->|Hne]; [lia|].
  destruct j as [|j]; simpl in Hj.
  - congruence.
  - apply (IH j); [exact Hj | lia].
Qed.

Lemma argmin_first_min (x : Z) (l : list Z) :
  first_min_at (x :: l) (Np.first_index (Np.amin x l) (x :: l)).
Proof.
  exists (Np.amin x l). split; [|split].
  - apply first_index_lookup, amin_in.
  - intros j y Hj. apply list_elem_of_lookup_2, list_elem_of_In in Hj.
    destruct Hj as [<-|Hj]; [apply amin_le | apply amin_lower, Hj].
  - intros j y Hj Hlt.
    pose proof (first_index_before _ _ _ _ Hj Hlt) as Hne.
    apply list_elem_of_lookup_2, list_elem_of_In in Hj.
    assert (Np.amin x l <= y)
      by (destruct Hj as [<-|Hj]; [apply amin_le | apply amin_lower, Hj]).
    lia.
Qed.

Lemma first_min_at_unique (ds : list Z) (i j : nat) :
  first_min_at ds i -> first_min_at ds j -> i = j.
Proof.
  intros (m & Hi & Hmin & Hfirst) (m' & Hj & Hmin' & Hfirst').
  destruct (Nat.lt_trichotomy i j) as [Hlt|[->|Hlt]]; [|reflexivity|].
  - pose proof (Hfirst' _ _ Hi Hlt). pose proof (Hmin _ _ Hj). lia.
  - pose proof (Hfirst _ _ Hj Hlt). pose proof (Hmin' _ _ Hi). lia.
Qed.

(** ** The sequential scan *)

Lemma scan_from_first_min (p : rgb) (rest pre : list rgb) (best_i : nat) :
  first_min_at (map (sq_dist p) pre) best_i ->
  forall best, map (sq_dist p) pre !! best_i = Some best ->
  first_min_at (map (sq_dist p) (pre ++ rest))
    (scan_from p best_i best (length pre) rest).
Proof.
  revert pre best_i. induction rest as [|c rest IH]; intros pre best_i Hpre best Hb.
  - rewrite app_nil_r. exact Hpre.
  - simpl.
    replace (pre ++ c :: rest) with ((pre ++ [c]) ++ rest)
      by (rewrite <- app_assoc; reflexivity).
    replace (S (length pre)) with (length (pre ++ [c]))
      by (rewrite length_app; simpl; lia).
    destruct Hpre as (m & Hm & Hmin & Hfirst).
    assert (m = best) as -> by congruence.
    assert (Hlen : length (map (sq_dist p) pre) = length pre)
      by apply length_map.
    destruct (Z.ltb_spec (sq_dist p c) best) as [Hlt|Hge].
    + apply IH.
      * exists (sq_dist p c). rewrite map_app. split; [|split].
        -- rewrite lookup_app_r by lia. rewrite Hlen, Nat.sub_diag. reflexivity.
        -- intros j y Hj. apply lookup_app_Some in Hj.
           destruct Hj as [Hj|[_ Hj]].
           ++ pose proof (Hmin _ _ Hj). lia.
           ++ destruct (j - _)%nat; simpl in Hj; [|discriminate].
              injection Hj as <-. lia.
        -- intros j y Hj Hjlt. apply lookup_app_Some in Hj.
           destruct Hj as [Hj|[Hge _]]; [|lia].
           pose proof (Hmin _ _ Hj). lia.
      * rewrite map_app, lookup_app_r by lia.
        rewrite Hlen, Nat.sub_diag. reflexivity.
    + apply IH.
      * exists best. rewrite map_app. split; [|split].
        -- apply lookup_app_l_Some. exact Hm.
        -- intros j y Hj. apply lookup_app_Some in Hj.
           destruct Hj as [Hj|[_ Hj]]; [exact (Hmin _ _ Hj)|].
           destruct (j - _)%nat; simpl in Hj; [|discriminate].
           injection Hj as <-. exact Hge.
        -- intros j y Hj Hjlt. apply lookup_app_Some in Hj.
           destruct Hj as [Hj|[Hge' _]]; [exact (Hfirst _ _ Hj Hjlt)|].
           apply lookup_lt_Some in Hm. lia.
      * rewrite map_app. apply lookup_app_l_Some. exact Hb.
Qed.

Lemma sequential_scan_first_min (p c : rgb) (pal : list rgb) :
  exists i, sequential_scan p (c :: pal) = Some i
    /\ first_min_at (map (sq_dist p) (c :: pal)) i.
Proof.
  eexists. split; [reflexivity|].
  apply (scan_from_first_min p pal [c] O).
  - exists (sq_dist p c). split; [reflexivity|]. split.
    + intros [|j] y Hj; simpl in Hj; [|discriminate].
      injection Hj as <-. lia.
    + intros j y _ Hlt. lia.
  - reflexivity.
Qed.

(** ** The quantizer on one pixel *)

Lemma lookup_map {A B : Type} (f : A -> B) (l : list A) (i : nat) :
  map f l !! i = option_map f (l !! i).
Proof.
  revert i. induction l as [|a l IH]; intros [|i]; simpl; auto.
Qed.

Lemma sq_dist_nonneg (p c : rgb) : 0 <= sq_dist p c.
Proof. destruct p as [[pr pg] pb], c as [[cr cg] cb]. unfold sq_dist. nia. Qed.

Lemma sq_dist_self (p : rgb) : sq_dist p p = 0.
Proof. destruct p as [[pr pg] pb]. unfold sq_dist. ring. Qed.

Lemma sq_dist_zero (p c : rgb) : sq_dist p c = 0 -> c = p.
Proof.
  destruct p as [[pr pg] pb], c as [[cr cg] cb]. unfold sq_dist. intros H.
  assert (cr - pr = 0) by nia. assert (cg - pg = 0) by nia.
  assert (cb - pb = 0) by nia.
  f_equal; [f_equal|]; lia.
Qed.

(** On 8-bit colors [nearest_color] returns the first minimum of the exact
    distances, whatever the width of the accumulator of [np.sum]. *)
Lemma nearest_color_acc_first_min (acc : Z) (p : rgb) (pal : list rgb) :
  32 <= acc -> is_rgb p -> Forall is_rgb pal -> pal <> [] ->
  exists i, nearest_color_acc acc p pal = Ok i
    /\ first_min_at (map (sq_dist p) pal) i.
Proof.
  intros Ha Hp Hpal Hne. unfold nearest_color_acc.
  rewrite dists_exact by assumption.
  destruct pal as [|c pal]; [congruence|]. simpl.
  eexists. split; [reflexivity|]. apply argmin_first_min.
Qed.

Lemma nearest_color_first_min (p : rgb) (pal : list rgb) :
  is_rgb p -> Forall is_rgb pal -> pal <> [] ->
  exists i, nearest_color p pal = Ok i
    /\ first_min_at (map (sq_dist p) pal) i.
Proof. apply nearest_color_acc_first_min. unfold Np.intp_bits. lia. Qed.

(** A 32-bit accumulator gives the same index. *)
Lemma nearest_color_acc32 (p : rgb) (pal : list rgb) :
  is_rgb p -> Forall is_rgb pal ->
  nearest_color_acc 32 p pal = nearest_color p pal.
Proof.
  intros Hp Hpal. unfold nearest_color, nearest_color_acc, Np.intp_bits.
  rewrite !dists_exact by (assumption || lia). reflexivity.
Qed.

(** Whatever the values, the index that [nearest_color] returns is a
    position of the palette. *)
Lemma nearest_color_in_range (p : rgb) (pal : list rgb) :
  pal <> [] ->
  exists i, nearest_color p pal = Ok i /\ (i < length pal)%nat.
Proof.
  intros Hne. unfold nearest_color, nearest_color_acc.
  assert (Hlen : length (dists_acc Np.intp_bits p pal) = length pal).
  { unfold dists_acc, diffs. destruct (map3 Np.int16 p) as [[r g] b].
    rewrite !length_map. reflexivity. }
  destruct (dists_acc Np.intp_bits p pal) as [|d ds] eqn:E.
  - destruct pal; [congruence | discriminate].
  - simpl. eexists. split; [reflexivity|].
    destruct (argmin_first_min d ds) as (m & Hm & _).
    apply lookup_lt_Some in Hm. rewrite <- Hlen. exact Hm.
Qed.

(** C1. For every 8-bit RGB pixel and every non-empty palette of 8-bit RGB
    triples, [nearest_color] returns the index of an entry whose squared
    Euclidean distance to the pixel is minimal over the whole palette, and
    the lowest index among the entries at that distance; a pixel equal to
    the RGB value of a palette entry gets an entry of that value, at
    distance 0, which is the entry itself when no earlier entry has the
    same value. *)
Theorem nearest_color_minimal_first (p : rgb) (pal : list rgb) :
  is_rgb p -> Forall is_rgb pal -> pal <> [] ->
  exists i c,
    nearest_color p pal = Ok i /\ pal !! i = Some c
    /\ (forall j c', pal !! j = Some c' -> sq_dist p c <= sq_dist p c')
    /\ (forall j c', pal !! j = Some c' ->
          sq_dist p c' = sq_dist p c -> (i <= j)%nat)
    /\ (forall k, pal !! k = Some p ->
          c = p /\ sq_dist p c = 0 /\ (i <= k)%nat
          /\ ((forall j, (j < k)%nat -> pal !! j <> Some p) -> i = k)).
Proof.
  intros Hp Hpal Hne.
  destruct (nearest_color_first_min p pal Hp Hpal Hne)
    as (i & Hi & m & Hm & Hmin & Hfirst).
  rewrite lookup_map in Hm.
  destruct (pal !! i) as [c|] eqn:Hc; [|discriminate].
  simpl in Hm. injection Hm as <-.
  assert (Hall : forall j c', pal !! j = Some c' -> sq_dist p c <= sq_dist p c').
  { intros j c' Hj. apply (Hmin j). rewrite lookup_map, Hj. reflexivity. }
  assert (Hlow : forall j c', pal !! j = Some c' ->
            sq_dist p c' = sq_dist p c -> (i <= j)%nat).
  { intros j c' Hj Heq. destruct (Nat.le_gt_cases i j) as [|Hlt]; [assumption|].
    assert (sq_dist p c < sq_dist p c'); [|lia].
    apply (Hfirst j); [|exact Hlt]. rewrite lookup_map, Hj. reflexivity. }
  exists i, c. repeat split; try assumption.
  - apply sq_dist_zero.
    pose proof (Hall _ _ H). pose proof (sq_dist_nonneg p c).
    rewrite sq_dist_self in *. lia.
  - pose proof (Hall _ _ H). pose proof (sq_dist_nonneg p c).
    rewrite sq_dist_self in *. lia.
  - apply (Hlow k p H).
    pose proof (Hall _ _ H). pose proof (sq_dist_nonneg p c).
    rewrite sq_dist_self in *. lia.
  - intros Hnodup.
    assert (Hle : (i <= k)%nat).
    { apply (Hlow k p H).
      pose proof (Hall _ _ H). pose proof (sq_dist_nonneg p c).
      rewrite sq_dist_self in *. lia. }
    destruct (Nat.eq_dec i k) as [|Hik]; [assumption|].
    exfalso. apply (Hnodup i); [lia|].
    rewrite Hc. f_equal. apply sq_dist_zero.
    pose proof (Hall _ _ H). pose proof (sq_dist_nonneg p c).
    rewrite sq_dist_self in *. lia.
Qed.

Lemma nearest_color_minimal_first_witness :
  exists i c,
    nearest_color (100, 100, 100) [(110, 100, 100); (90, 100, 100); (100, 100, 100); (100, 100, 100)] = Ok i
    /\ [(110, 100, 100); (90, 100, 100); (100, 100, 100); (100, 100, 100)] !! i = Some c
    /\ c = (100, 100, 100).
Proof.
  destruct (nearest_color_minimal_first (100, 100, 100)
              [(110, 100, 100); (90, 100, 100); (100, 100, 100); (100, 100, 100)])
    as (i & c & Hi & Hc & _ & _ & Hk).
  - unfold is_rgb. lia.
  - repeat constructor; lia.
  - discriminate.
  - exists i, c. split; [exact Hi|]. split; [exact Hc|].
    apply (Hk 2%nat). reflexivity.
Defined.

(** ** Loops *)

Section Loops.
Context {St : Type}.

Lemma for_range_S (n : nat) (body : nat -> St -> result St) (s : St) :
  for_range (S n) body s = (s' ← for_range n body s; body n s').
Proof.
  unfold for_range. rewrite seq_S, fold_left_app. reflexivity.
Qed.

(** A loop whose body keeps the invariant [P] and raises nothing. *)
Lemma for_range_inv (P : nat -> St -> Prop) (n : nat)
    (body : nat -> St -> result St) (s : St) :
  P O s ->
  (forall i t, (i < n)%nat -> P i t -> exists t', body i t = Ok t' /\ P (S i) t') ->
  exists t, for_range n body s = Ok t /\ P n t.
Proof.
  intros H0 Hstep. induction n as [|n IH].
  - exists s. split; [reflexivity | exact H0].
  - destruct IH as (t & Ht & HP).
    { intros i t Hi. apply Hstep. lia. }
    destruct (Hstep n t) as (t' & Ht' & HP'); [lia | exact HP |].
    exists t'. rewrite for_range_S, Ht. split; [exact Ht' | exact HP'].
Qed.

(** A loop whose body keeps the invariant [P] or raises [e]. *)
Lemma for_range_raise (P : nat -> St -> Prop) (e : exn) (n : nat)
    (body : nat -> St -> result St) (s : St) :
  P O s ->
  (forall i t, (i < n)%nat -> P i t ->
     (exists t', body i t = Ok t' /\ P (S i) t') \/ body i t = Raise e) ->
  (exists t, for_range n body s = Ok t /\ P n t) \/ for_range n body s = Raise e.
Proof.
  intros H0 Hstep. induction n as [|n IH].
  - left. exists s. split; [reflexivity | exact H0].
  - destruct IH as [(t & Ht & HP)|Hr].
    { intros i t Hi. apply Hstep. lia. }
    + rewrite for_range_S, Ht.
      destruct (Hstep n t) as [(t' & Ht' & HP')|Hr]; [lia | exact HP | |].
      * left. exists t'. split; [exact Ht' | exact HP'].
      * right. exact Hr.
    + right. rewrite for_range_S, Hr. reflexivity.
Qed.

End Loops.

(** ** The quantizer on a grid *)

(** The cell [(y, x)] of [mapped] holds the index that [nearest_color]
    returns for the pixel at [(y, x)]. *)
Lemma quantize_cells (px : ndarray pixel) (colors : list rgb) :
  colors <> [] ->
  exists m, quantize px colors = Ok m
    /\ shape0 m = shape0 px /\ shape1 m = shape1 px
    /\ forall y x, (y < shape0 px)%nat -> (x < shape1 px)%nat ->
         exists i, nearest_color (rgb_of_pixel (item px y x)) colors = Ok i
           /\ (i < length colors)%nat
           /\ item m y x = Np.int32 (Z.of_nat i).
Proof.
  intros Hne. unfold quantize.
  set (cell := fun (m : ndarray Z) (y x : nat) =>
         exists i, nearest_color (rgb_of_pixel (item px y x)) colors = Ok i
           /\ (i < length colors)%nat
           /\ item m y x = Np.int32 (Z.of_nat i)).
  set (shaped := fun m : ndarray Z =>
         shape0 m = shape0 px /\ shape1 m = shape1 px).
  destruct (for_range_inv
    (fun k m => shaped m /\
       forall y x, (y < k)%nat -> (x < shape1 px)%nat -> cell m y x)
    (shape0 px)
    (fun y mapped => for_range (shape1 px) (fun x mapped =>
       idx ← nearest_color (rgb_of_pixel (item px y x)) colors;
       Ok (setitem mapped y x (Z.of_nat idx))) mapped)
    (np_zeros (shape0 px) (shape1 px))) as (m & Hm & Hsh & Hcells).
  - split; [split; reflexivity|]. intros y x Hy. lia.
  - intros y m0 Hy (Hsh0 & Hdone).
    destruct (for_range_inv
      (fun k m => shaped m /\
         (forall x, (x < k)%nat -> cell m y x) /\
         (forall y' x, y' <> y -> item m y' x = item m0 y' x))
      (shape1 px)
      (fun x mapped =>
         idx ← nearest_color (rgb_of_pixel (item px y x)) colors;
         Ok (setitem mapped y x (Z.of_nat idx)))
      m0) as (m1 & Hm1 & Hsh1 & Hrow & Hframe).
    + split; [exact Hsh0|]. split; [intros x Hx; lia | reflexivity].
    + intros x m Hx (Hshm & Hrowm & Hframem).
      destruct (nearest_color_in_range (rgb_of_pixel (item px y x)) colors Hne)
        as (i & Hi & Hlt).
      exists (setitem m y x (Z.of_nat i)). rewrite Hi. split; [reflexivity|].
      split; [exact Hshm|]. split.
      * intros x' Hx'. destruct (Nat.eq_dec x' x) as [->|Hxx].
        -- exists i. split; [exact Hi|]. split; [exact Hlt|].
           simpl. rewrite !Nat.eqb_refl. reflexivity.
        -- destruct (Hrowm x') as (i' & Hi' & Hlt' & Hv); [lia|].
           exists i'. split; [exact Hi'|]. split; [exact Hlt'|].
           simpl. rewrite Nat.eqb_refl.
           destruct (Nat.eqb_spec x' x) as [|_]; [congruence|]. exact Hv.
      * intros y' x' Hy'. simpl.
        destruct (Nat.eqb_spec y' y) as [|_]; [congruence|].
        apply Hframem. exact Hy'.
    + exists m1. split; [exact Hm1|]. split; [exact Hsh1|].
      intros y' x Hy' Hx. destruct (Nat.eq_dec y' y) as [->|Hyy].
      * apply Hrow. exact Hx.
      * destruct (Hdone y' x) as (i & Hi & Hlt & Hv); [lia | exact Hx |].
        exists i. split; [exact Hi|]. split; [exact Hlt|].
        rewrite Hframe by exact Hyy. exact Hv.
  - exists m. split; [exact Hm|]. destruct Hsh as (Hs0 & Hs1).
    split; [exact Hs0|]. split; [exact Hs1|]. exact Hcells.
Qed.

Lemma u8_range (b : Byte.byte) : 0 <= u8 b <= 255.
Proof.
  unfold u8. pose proof (Byte.to_N_bounded b). lia.
Qed.

Lemma rgb_of_pixel_is_rgb (p : pixel) : is_rgb (rgb_of_pixel p).
Proof.
  destruct p as [[r g] b]. unfold rgb_of_pixel, is_rgb.
  auto using u8_range.
Qed.

(** On 8-bit palettes [nearest_color] and the sequential scan agree. *)
Lemma nearest_color_sequential_scan (p : rgb) (pal : list rgb) :
  is_rgb p -> Forall is_rgb pal -> pal <> [] ->
  exists i, nearest_color p pal = Ok i /\ sequential_scan p pal = Some i.
Proof.
  intros Hp Hpal Hne.
  destruct (nearest_color_first_min p pal Hp Hpal Hne) as (i & Hi & Hfm).
  destruct pal as [|c pal]; [congruence|].
  destruct (sequential_scan_first_min p c pal) as (j & Hj & Hfm').
  exists i. split; [exact Hi|]. rewrite Hj. f_equal.
  apply (first_min_at_unique _ _ _ Hfm' Hfm).
Qed.

(** C9. The quantizer is a function of the pixel grid and the palette
    alone: two runs over grids with the same shape and the same pixels,
    and the same palette of 8-bit colors, both end with an index grid, the
    two grids agree in every cell, and each cell holds the index that the
    sequential scan keeping the first minimum finds. *)
Theorem quantize_deterministic (px1 px2 : ndarray pixel) (colors : list rgb) :
  Forall is_rgb colors -> colors <> [] ->
  Z.of_nat (length colors) <= 2147483647 ->
  shape0 px1 = shape0 px2 -> shape1 px1 = shape1 px2 ->
  (forall y x, (y < shape0 px1)%nat -> (x < shape1 px1)%nat ->
     item px1 y x = item px2 y x) ->
  exists m1 m2,
    quantize px1 colors = Ok m1 /\ quantize px2 colors = Ok m2
    /\ shape0 m1 = shape0 px1 /\ shape1 m1 = shape1 px1
    /\ shape0 m2 = shape0 m1 /\ shape1 m2 = shape1 m1
    /\ forall y x, (y < shape0 px1)%nat -> (x < shape1 px1)%nat ->
         item m1 y x = item m2 y x
         /\ exists i,
              sequential_scan (rgb_of_pixel (item px1 y x)) colors = Some i
              /\ item m1 y x = Z.of_nat i.
Proof.
  intros Hpal Hne Hlen Hs0 Hs1 Hsame.
  destruct (quantize_cells px1 colors Hne) as (m1 & Hm1 & Ha0 & Ha1 & Hc1).
  destruct (quantize_cells px2 colors Hne) as (m2 & Hm2 & Hb0 & Hb1 & Hc2).
  exists m1, m2. repeat split; try assumption; try congruence.
  - destruct (Hc1 y x) as (i & Hi & Hlt & Hv); [assumption..|].
    destruct (Hc2 y x) as (j & Hj & _ & Hv'); [lia..|].
    rewrite <- Hsame in Hj by assumption. congruence.
  - destruct (Hc1 y x) as (i & Hi & Hlt & Hv); [assumption..|].
    destruct (nearest_color_sequential_scan (rgb_of_pixel (item px1 y x)) colors)
      as (j & Hj & Hscan); [apply rgb_of_pixel_is_rgb | assumption..|].
    exists j. split; [exact Hscan|].
    assert (i = j) as -> by congruence.
    rewrite Hv. apply int32_small. lia.
Qed.

(** ** The command emitter *)

Lemma cell_command_text (args : Args.t) (names : list string)
    (mapped : ndarray Z) (row col : nat) :
  cells_named names mapped ->
  (row < shape0 mapped)%nat -> (col < shape1 mapped)%nat ->
  cell_command args (shape0 mapped) names mapped row col
  = Ok (cell_text args names mapped row col).
Proof.
  intros Hn Hr Hc. destruct (Hn row col Hr Hc) as (name & Hname).
  unfold cell_text, cell_command. rewrite Hname. reflexivity.
Qed.

Lemma flat_map_seq_S {A : Type} (f : nat -> list A) (n : nat) :
  flat_map f (seq 0 (S n)) = flat_map f (seq 0 n) ++ f n.
Proof.
  rewrite seq_S, flat_map_app. simpl. rewrite app_nil_r. reflexivity.
Qed.

Lemma length_flat_map_rows {A : Type} (f : nat -> list A) (n w : nat) :
  (forall i, length (f i) = w) ->
  length (flat_map f (seq 0 n)) = (n * w)%nat.
Proof.
  intros Hf. induction n as [|n IH]; [reflexivity|].
  rewrite flat_map_seq_S, length_app, IH, Hf. lia.
Qed.

Lemma length_row_major (args : Args.t) (names : list string)
    (mapped : ndarray Z) :
  length (row_major args names mapped) = (shape0 mapped * shape1 mapped)%nat.
Proof.
  unfold row_major. apply length_flat_map_rows.
  intros i. rewrite length_map, length_seq. reflexivity.
Qed.

Lemma lookup_flat_map_rows {A : Type} (f : nat -> list A) (n w i j : nat) :
  (forall k, length (f k) = w) -> (i < n)%nat -> (j < w)%nat ->
  flat_map f (seq 0 n) !! (i * w + j)%nat = f i !! j.
Proof.
  intros Hf Hi Hj. induction n as [|n IH]; [lia|].
  rewrite flat_map_seq_S.
  pose proof (length_flat_map_rows f n w Hf) as Hlen.
  destruct (Nat.eq_dec i n) as [->|Hne].
  - rewrite lookup_app_r by lia. f_equal. lia.
  - rewrite lookup_app_l by nia. apply IH. lia.
Qed.

Lemma lookup_map_seq {A : Type} (f : nat -> A) (n j : nat) :
  (j < n)%nat -> map f (seq 0 n) !! j = Some (f j).
Proof.
  intros Hj. rewrite lookup_map.
  assert (seq 0 n !! j = Some j) as ->; [|reflexivity].
  apply lookup_seq. lia.
Qed.

Lemma lookup_row_major (args : Args.t) (names : list string)
    (mapped : ndarray Z) (row col : nat) :
  (row < shape0 mapped)%nat -> (col < shape1 mapped)%nat ->
  row_major args names mapped !! (row * shape1 mapped + col)%nat
  = Some (cell_text args names mapped row col).
Proof.
  intros Hr Hc. unfold row_major.
  rewrite (lookup_flat_map_rows _ _ (shape1 mapped)); try assumption.
  - apply lookup_map_seq. exact Hc.
  - intros k. rewrite length_map, length_seq. reflexivity.
Qed.

(** Under the limit, the loops build the commands of all cells. *)
Lemma build_commands_under (args : Args.t) (names : list string)
    (mapped : ndarray Z) :
  cells_named names mapped ->
  Z.of_nat (shape0 mapped * shape1 mapped) <= Args.max_commands args ->
  build_commands args names mapped = Ok (row_major args names mapped).
Proof.
  intros Hn Hmax. unfold build_commands. cbv zeta.
  set (H := shape0 mapped) in *. set (W := shape1 mapped) in *.
  set (rows := fun k => flat_map (fun row_idx =>
         map (cell_text args names mapped row_idx) (seq 0 W)) (seq 0 k)).
  destruct (for_range_inv (fun k cmds => cmds = rows k) H
    (fun row_idx commands => for_range W (fun col_idx commands =>
       cmd ← cell_command args H names mapped row_idx col_idx;
       let commands := commands ++ [cmd] in
       if Args.max_commands args <? Z.of_nat (length commands)
       then Raise (SystemExit (limit_message args))
       else Ok commands) commands) []) as (cmds & Hcmds & Hrows).
  - reflexivity.
  - intros row c0 Hrow ->.
    destruct (for_range_inv
      (fun j cmds => cmds = rows row
                       ++ map (cell_text args names mapped row) (seq 0 j)) W
      (fun col_idx commands =>
         cmd ← cell_command args H names mapped row col_idx;
         let commands := commands ++ [cmd] in
         if Args.max_commands args <? Z.of_nat (length commands)
         then Raise (SystemExit (limit_message args))
         else Ok commands) (rows row)) as (c1 & Hc1 & Hcols).
    + simpl. rewrite app_nil_r. reflexivity.
    + intros col c Hcol ->.
      unfold H. rewrite cell_command_text by assumption.
      eexists. split.
      * simpl. destruct (Z.ltb_spec (Args.max_commands args)
          (Z.of_nat (length ((rows row
             ++ map (cell_text args names mapped row) (seq 0 col))
             ++ [cell_text args names mapped row col])))) as [Hlt|_];
          [|reflexivity].
        exfalso. rewrite !length_app, length_map, length_seq in Hlt.
        unfold rows in Hlt.
        rewrite (length_flat_map_rows _ row W) in Hlt
          by (intros i; rewrite length_map, length_seq; reflexivity).
        simpl in Hlt. nia.
      * rewrite seq_S, map_app, app_assoc. reflexivity.
    + exists c1. split; [exact Hc1|]. rewrite Hcols.
      unfold rows. rewrite flat_map_seq_S. reflexivity.
  - rewrite Hrows in Hcmds. exact Hcmds.
Qed.

(** Over the limit, the loops end in the exit of line 143. *)
Lemma build_commands_over (args : Args.t) (names : list string)
    (mapped : ndarray Z) :
  cells_named names mapped ->
  (0 < shape0 mapped * shape1 mapped)%nat ->
  Args.max_commands args < Z.of_nat (shape0 mapped * shape1 mapped) ->
  build_commands args names mapped = Raise (SystemExit (limit_message args)).
Proof.
  intros Hn Hpos Hmax. unfold build_commands. cbv zeta.
  set (H := shape0 mapped) in *. set (W := shape1 mapped) in *.
  set (fits := fun cmds : list string =>
         Z.of_nat (length cmds) <= Args.max_commands args \/ length cmds = O).
  destruct (for_range_raise
    (fun k cmds => length cmds = (k * W)%nat /\ fits cmds)
    (SystemExit (limit_message args)) H
    (fun row_idx commands => for_range W (fun col_idx commands =>
       cmd ← cell_command args H names mapped row_idx col_idx;
       let commands := commands ++ [cmd] in
       if Args.max_commands args <? Z.of_nat (length commands)
       then Raise (SystemExit (limit_message args))
       else Ok commands) commands) []) as [(cmds & _ & Hlen & Hfits)|Hr].
  - split; [reflexivity | right; reflexivity].
  - intros row c0 Hrow (Hlen0 & Hfits0).
    destruct (for_range_raise
      (fun j cmds => length cmds = (row * W + j)%nat /\ fits cmds)
      (SystemExit (limit_message args)) W
      (fun col_idx commands =>
         cmd ← cell_command args H names mapped row col_idx;
         let commands := commands ++ [cmd] in
         if Args.max_commands args <? Z.of_nat (length commands)
         then Raise (SystemExit (limit_message args))
         else Ok commands) c0) as [(c1 & Hc1 & Hlen1 & Hfits1)|Hr].
    + split; [lia | exact Hfits0].
    + intros col c Hcol (Hlenc & Hfitsc).
      unfold H. rewrite cell_command_text by assumption. simpl.
      destruct (Z.ltb_spec (Args.max_commands args)
        (Z.of_nat (length (c ++ [cell_text args names mapped row col]))))
        as [Hlt|Hge]; [right; reflexivity|].
      left. eexists. split; [reflexivity|].
      unfold fits. rewrite !length_app in *. simpl in *. split; [lia|]. left. lia.
    + left. exists c1. split; [exact Hc1|]. split; [lia | exact Hfits1].
    + right. exact Hr.
  - exfalso. destruct Hfits as [Hle|Hz]; fold H W in Hlen; lia.
  - exact Hr.
Qed.

(** ** The palettes *)

Lemma palette_colors_values (b : blocktype) :
  palette_colors b = map snd (PALETTES b).
Proof. destruct b; vm_compute; reflexivity. Qed.


Lemma length_palette_colors (b : blocktype) : length (palette_colors b) = 16%nat.
Proof. destruct b; reflexivity. Qed.

Lemma length_palette_names (b : blocktype) : length (palette_names b) = 16%nat.
Proof. destruct b; reflexivity. Qed.

Lemma palette_colors_nonempty (b : blocktype) : palette_colors b <> [].
Proof. destruct b; discriminate. Qed.

Lemma getitem_nat {A : Type} (l : list A) (i : nat) :
  (i < length l)%nat ->
  exists a, l !! i = Some a /\ getitem l (Z.of_nat i) = Ok a.
Proof.
  intros Hi. destruct (lookup_lt_is_Some_2 l i Hi) as (a & Ha).
  exists a. split; [exact Ha|]. unfold getitem.
  destruct (Z.ltb_spec (Z.of_nat i) 0) as [|_]; [lia|].
  destruct (Z.leb_spec 0 (Z.of_nat i)) as [_|]; [|lia].
  destruct (Z.ltb_spec (Z.of_nat i) (Z.of_nat (length l))) as [_|]; [|lia].
  simpl. rewrite Nat2Z.id, Ha. reflexivity.
Qed.

(** ** The stages of [main] *)

(** What the quantizer leaves in [mapped_idxs] for the resized image. *)
Lemma quantize_small (b : blocktype) (small : image) :
  exists mapped,
    quantize (np_array small) (palette_colors b) = Ok mapped
    /\ shape0 mapped = height small /\ shape1 mapped = width small
    /\ forall y x, (y < height small)%nat -> (x < width small)%nat ->
         exists i name color,
           nearest_color (rgb_of_pixel (getpixel small x y)) (palette_colors b)
           = Ok i
           /\ item mapped y x = Z.of_nat i
           /\ palette_names b !! i = Some name
           /\ getitem (palette_names b) (item mapped y x) = Ok name
           /\ palette_colors b !! i = Some color
           /\ getitem (palette_colors b) (item mapped y x) = Ok color.
Proof.
  destruct (quantize_cells (np_array small) (palette_colors b)
              (palette_colors_nonempty b)) as (m & Hm & Hs0 & Hs1 & Hcells).
  exists m. split; [exact Hm|]. split; [exact Hs0|]. split; [exact Hs1|].
  intros y x Hy Hx. destruct (Hcells y x Hy Hx) as (i & Hi & Hlt & Hv).
  rewrite length_palette_colors in Hlt.
  rewrite int32_small in Hv by lia.
  destruct (getitem_nat (palette_names b) i) as (name & Hn & Hgn);
    [rewrite length_palette_names; exact Hlt|].
  destruct (getitem_nat (palette_colors b) i) as (color & Hc & Hgc);
    [rewrite length_palette_colors; exact Hlt|].
  exists i, name, color. rewrite Hv. simpl in Hi. auto 10.
Qed.

Lemma quantize_small_named (b : blocktype) (small : image) (mapped : ndarray Z) :
  quantize (np_array small) (palette_colors b) = Ok mapped ->
  cells_named (palette_names b) mapped.
Proof.
  intros Hq. destruct (quantize_small b small) as (m & Hm & Hs0 & Hs1 & Hcells).
  assert (m = mapped) as -> by congruence.
  intros y x Hy Hx. rewrite Hs0 in Hy. rewrite Hs1 in Hx.
  destruct (Hcells y x Hy Hx) as (i & name & color & _ & _ & _ & Hg & _).
  exists name. exact Hg.
Qed.

(** The resized image has the requested size and at least one pixel. *)
Lemma normalize_size (pil : pillow) (args : Args.t) (im small : image) :
  normalize pil args im = Ok small ->
  exists q,
    Float.true_divide (Args.width args * Z.of_nat (height im))
      (Z.of_nat (width im)) = Ok q
    /\ Z.of_nat (width small) = Args.width args
    /\ Z.of_nat (height small) = Float.round q
    /\ (image_ok im -> image_ok small).
Proof.
  unfold normalize, target_h. intros Hn.
  destruct (Float.true_divide _ _) as [q|e] eqn:Hq; [|discriminate].
  exists q. split; [reflexivity|]. simpl in Hn.
  destruct (Z.eqb_spec (Args.width args) (Z.of_nat (width im))) as [Hw|_];
    [destruct (Z.eqb_spec (Float.round q) (Z.of_nat (height im))) as [Hh|_]|];
    simpl in Hn.
  - injection Hn as <-. auto.
  - destruct ((Args.width args <? 1) || (Float.round q <? 1)) eqn:Hlt;
      [discriminate|].
    apply orb_false_elim in Hlt. destruct Hlt as (Hlw & Hlh).
    apply Z.ltb_ge in Hlw, Hlh.
    injection Hn as <-. simpl. unfold image_ok. simpl. repeat split; lia.
  - destruct ((Args.width args <? 1) || (Float.round q <? 1)) eqn:Hlt;
      [discriminate|].
    apply orb_false_elim in Hlt. destruct Hlt as (Hlw & Hlh).
    apply Z.ltb_ge in Hlw, Hlh.
    injection Hn as <-. simpl. unfold image_ok. simpl. repeat split; lia.
Qed.

Lemma build_commands_empty (args : Args.t) (names : list string)
    (mapped : ndarray Z) :
  (shape0 mapped * shape1 mapped = 0)%nat ->
  build_commands args names mapped = Ok [].
Proof.
  intros Hz. unfold build_commands. cbv zeta.
  destruct (for_range_inv (fun _ cmds => cmds = @nil string) (shape0 mapped)
    (fun row_idx commands => for_range (shape1 mapped) (fun col_idx commands =>
       cmd ← cell_command args (shape0 mapped) names mapped row_idx col_idx;
       let commands := commands ++ [cmd] in
       if Args.max_commands args <? Z.of_nat (length commands)
       then Raise (SystemExit (limit_message args))
       else Ok commands) commands) []) as (cmds & Hcmds & ->).
  - reflexivity.
  - intros row c0 Hrow ->. assert (shape1 mapped = O) as -> by nia.
    exists []. split; reflexivity.
  - exact Hcmds.
Qed.

(** The commands of a run that was not stopped are those of all cells, in
    row-major order. *)
Lemma build_commands_ok (args : Args.t) (names : list string)
    (mapped : ndarray Z) (cmds : list string) :
  cells_named names mapped ->
  build_commands args names mapped = Ok cmds ->
  cmds = row_major args names mapped.
Proof.
  intros Hn Hb.
  destruct (Z.le_gt_cases (Z.of_nat (shape0 mapped * shape1 mapped))
              (Args.max_commands args)) as [Hle|Hgt].
  - rewrite build_commands_under in Hb by assumption. congruence.
  - destruct (Nat.eq_dec (shape0 mapped * shape1 mapped)%nat O) as [Hz|Hnz].
    + rewrite build_commands_empty in Hb by assumption.
      injection Hb as <-. symmetry. apply length_zero_iff_nil.
      rewrite length_row_major. exact Hz.
    + rewrite build_commands_over in Hb by (assumption || lia). discriminate.
Qed.

Lemma compute_inv (pil : pillow) (args : Args.t) (im : image)
    (c : computed) :
  compute pil args im = Ok c ->
  normalize pil args im = Ok (im_small c)
  /\ quantize (np_array (im_small c)) (palette_colors (Args.blocktype args))
     = Ok (mapped_idxs c)
  /\ build_commands args (palette_names (Args.blocktype args)) (mapped_idxs c)
     = Ok (commands c).
Proof.
  unfold compute. intros Hc.
  destruct (normalize pil args im) as [small|] eqn:Hn; [|discriminate].
  simpl in Hc.
  destruct (quantize _ _) as [mapped|] eqn:Hq; [|discriminate]. simpl in Hc.
  destruct (build_commands _ _ _) as [cmds|] eqn:Hb; [|discriminate].
  simpl in Hc. injection Hc as <-. simpl. auto.
Qed.

(** [compute] after a successful resize: the index grid, and the commands
    or the exit according to the limit. *)
Lemma compute_after_normalize (pil : pillow) (args : Args.t)
    (im small : image) :
  normalize pil args im = Ok small ->
  exists mapped,
    quantize (np_array small) (palette_colors (Args.blocktype args)) = Ok mapped
    /\ shape0 mapped = height small /\ shape1 mapped = width small
    /\ (Z.of_nat (height small * width small) <= Args.max_commands args ->
        compute pil args im
        = Ok {| im_small := small; mapped_idxs := mapped;
                commands := row_major args
                              (palette_names (Args.blocktype args)) mapped |})
    /\ ((0 < height small * width small)%nat ->
        Args.max_commands args < Z.of_nat (height small * width small) ->
        compute pil args im = Raise (SystemExit (limit_message args))).
Proof.
  intros Hn.
  destruct (quantize_small (Args.blocktype args) small)
    as (mapped & Hq & Hs0 & Hs1 & _).
  pose proof (quantize_small_named _ _ _ Hq) as Hnamed.
  exists mapped. split; [exact Hq|]. split; [exact Hs0|]. split; [exact Hs1|].
  unfold compute. rewrite Hn. simpl. rewrite Hq. simpl.
  rewrite <- Hs0, <- Hs1. split.
  - intros Hle. rewrite build_commands_under by assumption. reflexivity.
  - intros Hpos Hgt. rewrite build_commands_over by assumption. reflexivity.
Qed.

Lemma cell_text_named (args : Args.t) (names : list string)
    (mapped : ndarray Z) (row col : nat) (name : string) :
  getitem names (item mapped row col) = Ok name ->
  cell_text args names mapped row col
  = build_setblock_cmd
      (Args.startx args + Z.of_nat col) (Args.starty args)
      (Args.startz args
       + (if Args.flipy args then Z.of_nat row
          else Z.of_nat (shape0 mapped) - 1 - Z.of_nat row))
      ("minecraft:" +:+ name +:+ "_" +:+ blocktype_name (Args.blocktype args)).
Proof.
  intros Hg. unfold cell_text, cell_command. rewrite Hg. reflexivity.
Qed.

(** The command of a cell in a run that reaches line 145. *)
Lemma compute_command (pil : pillow) (args : Args.t) (im : image)
    (c : computed) (row col : nat) :
  compute pil args im = Ok c ->
  (row < height (im_small c))%nat -> (col < width (im_small c))%nat ->
  exists i name,
    nearest_color (rgb_of_pixel (getpixel (im_small c) col row))
      (palette_colors (Args.blocktype args)) = Ok i
    /\ palette_names (Args.blocktype args) !! i = Some name
    /\ commands c !! (row * width (im_small c) + col)%nat
       = Some ("setblock " +:+ offset_token (Args.startx args + Z.of_nat col)
                 +:+ " " +:+ str (Args.starty args) +:+ " "
                 +:+ offset_token
                       (Args.startz args
                        + (if Args.flipy args then Z.of_nat row
                           else Z.of_nat (height (im_small c)) - 1
                                - Z.of_nat row))
                 +:+ " "
                 +:+ ("minecraft:" +:+ name +:+ "_"
                        +:+ blocktype_name (Args.blocktype args))
                 +:+ " replace").
Proof.
  intros Hc Hrow Hcol. destruct (compute_inv _ _ _ _ Hc) as (Hn & Hq & Hb).
  destruct (quantize_small (Args.blocktype args) (im_small c))
    as (m & Hm & Hs0 & Hs1 & Hcells).
  assert (m = mapped_idxs c) as -> by congruence.
  pose proof (quantize_small_named _ _ _ Hq) as Hnamed.
  destruct (Hcells row col Hrow Hcol)
    as (i & name & color & Hi & _ & Hname & Hg & _).
  exists i, name. split; [exact Hi|]. split; [exact Hname|].
  rewrite (build_commands_ok _ _ _ _ Hnamed Hb).
  rewrite <- Hs1, lookup_row_major by lia.
  rewrite (cell_text_named _ _ _ _ _ _ Hg), Hs0. reflexivity.
Qed.

Lemma numeral_of_str (z : Z) : numeral_of (str z) z.
Proof.
  unfold numeral_of, str. split; [|split; [reflexivity | apply DecimalZ.of_to]].
  apply NilZero.isi.
  - destruct z as [|p|p]; simpl; try discriminate.
    intros [= H]. exact (DecimalPos.Unsigned.to_uint_nonnil p H).
  - destruct z as [|p|p]; simpl; try discriminate.
    intros [= H]. exact (DecimalPos.Unsigned.to_uint_nonnil p H).
Qed.

Lemma token_of_offset_token (offset : Z) : token_of (offset_token offset) offset.
Proof.
  unfold token_of, offset_token.
  destruct (Z.eqb_spec offset 0) as [->|Hne]; [left; auto|].
  right. split; [exact Hne|]. exists (str offset).
  split; [reflexivity | apply numeral_of_str].
Qed.

Lemma family_of_blocktype_name (b : blocktype) : family_of (blocktype_name b) b.
Proof. destruct b; reflexivity. Qed.

(** C3. When the image is resized to [W] by [H] pixels and [W * H] does not
    exceed [--max-commands], the run builds its commands, and the command
    of the cell at [(row, col)] is exactly
    [setblock <horizontal> <height> <depth> minecraft:<color>_<family> replace].
    The horizontal token is the relative coordinate of [startx + col], the
    depth token that of [startz + row] with [--flipy] and of
    [startz + (H - 1 - row)] without: ["~"] alone for 0, ["~"] and the
    decimal numeral of the offset otherwise. The height is the decimal
    numeral of [starty], the color is the name of the palette entry that
    [nearest_color] matched to the pixel of the cell, and the family is
    [--blocktype] as it is spelled. *)
Theorem command_shape (pil : pillow) (args : Args.t) (im small : image)
    (row col : nat) :
  normalize pil args im = Ok small ->
  Z.of_nat (width small * height small) <= Args.max_commands args ->
  (row < height small)%nat -> (col < width small)%nat ->
  exists c i name color xtok ytok ztok family,
    compute pil args im = Ok c
    /\ nearest_color (rgb_of_pixel (getpixel small col row))
         (palette_colors (Args.blocktype args)) = Ok i
    /\ PALETTES (Args.blocktype args) !! i = Some (name, color)
    /\ commands c !! (row * width small + col)%nat
       = Some ("setblock " +:+ xtok +:+ " " +:+ ytok +:+ " " +:+ ztok
                 +:+ " " +:+ ("minecraft:" +:+ name +:+ "_" +:+ family)
                 +:+ " replace")
    /\ token_of xtok (Args.startx args + Z.of_nat col)
    /\ numeral_of ytok (Args.starty args)
    /\ token_of ztok
         (Args.startz args
          + (if Args.flipy args then Z.of_nat row
             else Z.of_nat (height small) - 1 - Z.of_nat row))
    /\ family_of family (Args.blocktype args)
    /\ xtok = offset_token (Args.startx args + Z.of_nat col)
    /\ ytok = str (Args.starty args)
    /\ ztok = offset_token
                (Args.startz args
                 + (if Args.flipy args then Z.of_nat row
                    else Z.of_nat (height small) - 1 - Z.of_nat row))
    /\ family = blocktype_name (Args.blocktype args).
Proof.
  intros Hn Hle Hrow Hcol.
  destruct (compute_after_normalize pil args im small Hn)
    as (mapped & _ & _ & _ & Hunder & _).
  rewrite Nat.mul_comm in Hle. specialize (Hunder Hle).
  destruct (compute_command pil args im _ row col Hunder Hrow Hcol)
    as (i & name & Hi & Hname & Hcmd).
  assert (Hpal : exists color,
            PALETTES (Args.blocktype args) !! i = Some (name, color)).
  { unfold palette_names in Hname. rewrite lookup_map in Hname.
    destruct (PALETTES (Args.blocktype args) !! i) as [[n0 c0]|];
      [|discriminate].
    simpl in Hname. injection Hname as ->. exists c0. reflexivity. }
  destruct Hpal as (color & Hpal).
  eexists. exists i, name, color. do 4 eexists.
  split; [exact Hunder|]. split; [exact Hi|]. split; [exact Hpal|].
  split; [exact Hcmd|].
  split; [apply token_of_offset_token|]. split; [apply numeral_of_str|].
  split; [apply token_of_offset_token|].
  split; [apply family_of_blocktype_name|].
  repeat split; reflexivity.
Qed.

(** ** The preview *)



(** The preview before it is enlarged: one pixel per cell. *)
Lemma paint_preview_cells (mapped : ndarray Z) (colors : list rgb) :
  cells_colored colors mapped ->
  exists pv, paint_preview mapped colors = Ok pv
    /\ width pv = shape1 mapped /\ height pv = shape0 mapped
    /\ forall y x, (y < shape0 mapped)%nat -> (x < shape1 mapped)%nat ->
         shows colors mapped pv x y y x.
Proof.
  intros Hcol. unfold paint_preview. cbv zeta.
  set (sized := fun pv : image =>
         width pv = shape1 mapped /\ height pv = shape0 mapped).
  destruct (for_range_inv
    (fun k pv => sized pv /\
       forall y x, (y < k)%nat -> (x < shape1 mapped)%nat ->
         shows colors mapped pv x y y x)
    (shape0 mapped)
    (fun y preview => for_range (shape1 mapped) (fun x preview =>
       color ← getitem colors (item mapped y x);
       Ok (putpixel preview x y color)) preview)
    (image_new (shape1 mapped) (shape0 mapped))) as (pv & Hpv & Hsz & Hcells).
  - split; [split; reflexivity|]. intros y x Hy. lia.
  - intros y pv0 Hy (Hsz0 & Hdone).
    destruct (for_range_inv
      (fun k pv => sized pv /\
         (forall x, (x < k)%nat -> shows colors mapped pv x y y x) /\
         (forall y' x, y' <> y -> getpixel pv x y' = getpixel pv0 x y'))
      (shape1 mapped)
      (fun x preview =>
         color ← getitem colors (item mapped y x);
         Ok (putpixel preview x y color))
      pv0) as (pv1 & Hpv1 & Hsz1 & Hrow & Hframe).
    + split; [exact Hsz0|]. split; [intros x Hx; lia | reflexivity].
    + intros x pv Hx (Hszp & Hrowp & Hframep).
      destruct (Hcol y x Hy Hx) as (color & Hcolor).
      exists (putpixel pv x y color). rewrite Hcolor. split; [reflexivity|].
      split; [exact Hszp|]. split.
      * intros x' Hx'. destruct (Nat.eq_dec x' x) as [->|Hxx].
        -- exists color. split; [exact Hcolor|].
           simpl. rewrite !Nat.eqb_refl. reflexivity.
        -- destruct (Hrowp x') as (color' & Hc' & Hv); [lia|].
           exists color'. split; [exact Hc'|].
           simpl. destruct (Nat.eqb_spec x' x) as [|_]; [congruence|]. exact Hv.
      * intros y' x' Hy'. simpl.
        destruct (Nat.eqb_spec y' y) as [|_]; [congruence|].
        rewrite andb_false_r. apply Hframep. exact Hy'.
    + exists pv1. split; [exact Hpv1|]. split; [exact Hsz1|].
      intros y' x Hy' Hx. destruct (Nat.eq_dec y' y) as [->|Hyy].
      * apply Hrow. exact Hx.
      * destruct (Hdone y' x) as (color & Hc & Hv); [lia | exact Hx |].
        exists color. split; [exact Hc|].
        rewrite Hframe by exact Hyy. exact Hv.
  - exists pv. split; [exact Hpv|]. destruct Hsz as (Hw & Hh).
    split; [exact Hw|]. split; [exact Hh|]. exact Hcells.
Qed.

(** Enlarging 8 times, NEAREST reads the pixel [x / 8]. *)
Lemma nearest_src_8 (x n : nat) :
  (0 < n)%nat -> nearest_src x n (n * 8) = (x / 8)%nat.
Proof.
  intros Hn. unfold nearest_src.
  pose proof (Nat.div_mod_eq x 8) as Hx.
  pose proof (Nat.mod_upper_bound x 8 ltac:(lia)) as Hr.
  symmetry. apply (Nat.div_unique _ _ _ ((2 * (x mod 8) + 1) * n)); nia.
Qed.

(** The enlarged preview: every pixel of the 8 by 8 block of a cell has the
    color of the cell. *)
Lemma render_preview_blocks (pil : pillow) (mapped : ndarray Z)
    (colors : list rgb) :
  cells_colored colors mapped ->
  (0 < shape0 mapped)%nat -> (0 < shape1 mapped)%nat ->
  exists pv, render_preview pil mapped colors = Ok pv
    /\ width pv = (shape1 mapped * 8)%nat
    /\ height pv = (shape0 mapped * 8)%nat
    /\ forall y x dy dx,
         (y < shape0 mapped)%nat -> (x < shape1 mapped)%nat ->
         (dy < 8)%nat -> (dx < 8)%nat ->
         shows colors mapped pv (x * 8 + dx) (y * 8 + dy) y x.
Proof.
  intros Hcol HH HW.
  destruct (paint_preview_cells mapped colors Hcol)
    as (pv0 & Hpv0 & Hw0 & Hh0 & Hcells).
  unfold render_preview. cbv zeta. rewrite Hpv0. simpl.
  rewrite Hw0, Hh0.
  destruct (Z.eqb_spec (Z.of_nat (shape1 mapped) * 8) (Z.of_nat (shape1 mapped)))
    as [|_]; [lia|]. simpl.
  destruct (Z.ltb_spec (Z.of_nat (shape1 mapped) * 8) 1) as [|_]; [lia|].
  destruct (Z.ltb_spec (Z.of_nat (shape0 mapped) * 8) 1) as [|_]; [lia|].
  simpl. eexists. split; [reflexivity|]. unfold shows. simpl.
  replace (Z.to_nat (Z.of_nat (shape1 mapped) * 8)) with (shape1 mapped * 8)%nat
    by lia.
  replace (Z.to_nat (Z.of_nat (shape0 mapped) * 8)) with (shape0 mapped * 8)%nat
    by lia.
  split; [reflexivity|]. split; [reflexivity|].
  intros y x dy dx Hy Hx Hdy Hdx.
  rewrite !nearest_src_8 by assumption.
  replace ((x * 8 + dx) / 8)%nat with x
    by (apply (Nat.div_unique _ _ _ dx); lia).
  replace ((y * 8 + dy) / 8)%nat with y
    by (apply (Nat.div_unique _ _ _ dy); lia).
  destruct (Hcells y x Hy Hx) as (color & Hc & Hv).
  exists color. split; [exact Hc | exact Hv].
Qed.

(** ** Files *)

Lemma app_cons (c : ascii) (s t : string) :
  String c s +:+ t = String c (s +:+ t).
Proof. reflexivity. Qed.

Lemma app_empty_r (s : string) : s +:+ EmptyString = s.
Proof.
  induction s as [|c s IH]; [reflexivity|]. rewrite app_cons, IH. reflexivity.
Qed.

Lemma app_assoc_string (s t u : string) : (s +:+ t) +:+ u = s +:+ (t +:+ u).
Proof.
  induction s as [|c s IH]; [reflexivity|]. rewrite !app_cons, IH. reflexivity.
Qed.

(** The writes of [make_mcfunction] leave one command per line. *)
Lemma written_unlines (cmds : list string) : written cmds = unlines cmds.
Proof.
  unfold written.
  assert (Hgen : forall acc,
    fold_left (fun f cmd => f +:+ (cmd +:+ nl)) cmds acc = acc +:+ unlines cmds).
  { induction cmds as [|cmd cmds IH]; intros acc; simpl.
    - rewrite app_empty_r. reflexivity.
    - rewrite IH, !app_assoc_string. reflexivity. }
  rewrite Hgen. reflexivity.
Qed.

Lemma files_usage (w : world) :
  files (fold_left (fun w line => print line w) usage_hints w) = files w.
Proof. reflexivity. Qed.

Lemma make_mcfunction_out (cmds : list string) (out_path : string) (w : world) :
  files (make_mcfunction cmds out_path w) !! out_path
  = Some (TextFile (unlines cmds)).
Proof.
  unfold make_mcfunction. simpl. rewrite lookup_insert_eq, written_unlines.
  reflexivity.
Qed.

Lemma make_mcfunction_other (cmds : list string) (out_path p : string)
    (w : world) :
  p <> out_path ->
  files (make_mcfunction cmds out_path w) !! p = files w !! p.
Proof.
  intros Hp. unfold make_mcfunction. simpl.
  rewrite lookup_insert_ne by congruence. reflexivity.
Qed.

(** ** The whole run *)

(** A run stopped before line 145 leaves the world as it found it. *)
Lemma main_raise (pil : pillow) (args : Args.t) (im : image)
    (w : world) (e : exn) :
  compute pil args im = Raise e -> main pil args im w = (w, Raise e).
Proof. intros Hc. unfold main. rewrite Hc. reflexivity. Qed.

(** Whatever becomes of the preview, the commands stay in the output file,
    unless the preview is saved over it. *)
Lemma main_out (pil : pillow) (args : Args.t) (im : image)
    (w : world) (c : computed) :
  compute pil args im = Ok c ->
  preview_path args <> Some (Args.out args) ->
  files (main pil args im w).1 !! Args.out args
  = Some (TextFile (unlines (commands c))).
Proof.
  intros Hc Hp. unfold main. rewrite Hc.
  destruct (preview_path args) as [path|].
  - destruct (render_preview _ _ _) as [pv|e]; simpl.
    + unfold save. destruct (save_format pil path) as [format|]; simpl.
      * rewrite lookup_insert_ne by congruence.
        rewrite lookup_insert_eq, written_unlines. reflexivity.
      * rewrite lookup_insert_eq, written_unlines. reflexivity.
    + rewrite lookup_insert_eq, written_unlines. reflexivity.
  - simpl. rewrite lookup_insert_eq, written_unlines. reflexivity.
Qed.

Lemma quantize_small_colored (b : blocktype) (small : image)
    (mapped : ndarray Z) :
  quantize (np_array small) (palette_colors b) = Ok mapped ->
  cells_colored (palette_colors b) mapped.
Proof.
  intros Hq. destruct (quantize_small b small) as (m & Hm & Hs0 & Hs1 & Hcells).
  assert (m = mapped) as -> by congruence.
  intros y x Hy Hx. rewrite Hs0 in Hy. rewrite Hs1 in Hx.
  destruct (Hcells y x Hy Hx) as (i & name & color & _ & _ & _ & _ & _ & Hg).
  exists color. exact Hg.
Qed.

(** A run that reaches line 145 with a grid of at least one cell has
    written the command file; it ends normally, with the preview saved
    when one was asked for, unless Pillow knows no format for the
    extension of the preview path. *)
Lemma main_ok (pil : pillow) (args : Args.t) (im : image)
    (w : world) (c : computed) :
  compute pil args im = Ok c -> image_ok (im_small c) ->
  match preview_path args with
  | None =>
      exists w', main pil args im w = (w', Ok ())
        /\ files w' = <[Args.out args := TextFile (unlines (commands c))]>
                        (files w)
  | Some path =>
      exists pv,
        render_preview pil (mapped_idxs c)
          (palette_colors (Args.blocktype args)) = Ok pv
        /\ match save_format pil path with
           | None =>
               (main pil args im w).2
               = Raise (ValueError "unknown file extension")
           | Some format =>
               exists w', main pil args im w = (w', Ok ())
                 /\ files w'
                    = <[path := ImageFile (format pv)]>
                        (<[Args.out args := TextFile (unlines (commands c))]>
                           (files w))
           end
  end.
Proof.
  intros Hc (HW & HH). destruct (compute_inv _ _ _ _ Hc) as (Hn & Hq & Hb).
  destruct (quantize_small (Args.blocktype args) (im_small c))
    as (m & Hm & Hs0 & Hs1 & _).
  assert (m = mapped_idxs c) as -> by congruence.
  unfold main. rewrite Hc. destruct (preview_path args) as [path|].
  - destruct (render_preview_blocks pil (mapped_idxs c)
                (palette_colors (Args.blocktype args)))
      as (pv & Hpv & _); [eapply quantize_small_colored; eassumption | lia..|].
    exists pv. split; [exact Hpv|]. rewrite Hpv. simpl. unfold save.
    destruct (save_format pil path) as [format|]; simpl; [|reflexivity].
    eexists. split; [reflexivity|]. simpl. rewrite written_unlines.
    reflexivity.
  - eexists. split; [reflexivity|]. simpl. rewrite written_unlines.
    reflexivity.
Qed.


(** C2. For the grid of [W] columns and [H] rows of a decoded image and any
    [--max-commands]: when [W * H] exceeds it, the run ends in the
    [SystemExit] of the command limit and leaves the world as it found it,
    no file created or written; when [W * H] does not exceed it, the run
    does not end in that exit, builds all [W * H] commands and leaves them
    in the output file. *)
Theorem command_limit (pil : pillow) (args : Args.t)
    (im small : image) (w : world) :
  image_ok im ->
  normalize pil args im = Ok small ->
  (Args.max_commands args < Z.of_nat (width small * height small) ->
     main pil args im w = (w, Raise (SystemExit (limit_message args))))
  /\ (Z.of_nat (width small * height small) <= Args.max_commands args ->
        exists c,
          compute pil args im = Ok c
          /\ length (commands c) = (width small * height small)%nat
          /\ (forall msg, (main pil args im w).2 <> Raise (SystemExit msg))
          /\ (preview_path args <> Some (Args.out args) ->
                files (main pil args im w).1 !! Args.out args
                = Some (TextFile (unlines (commands c))))).
Proof.
  intros Him Hn.
  destruct (normalize_size _ _ _ _ Hn) as (q & _ & _ & _ & Hok).
  specialize (Hok Him). destruct (Hok) as (HW & HH).
  destruct (compute_after_normalize pil args im small Hn)
    as (mapped & Hq & Hs0 & Hs1 & Hunder & Hover).
  rewrite (Nat.mul_comm (width small)). split.
  - intros Hgt. apply main_raise, Hover; [nia | exact Hgt].
  - intros Hle. specialize (Hunder Hle).
    eexists. split; [exact Hunder|]. simpl.
    split; [rewrite length_row_major; lia|]. split.
    + intros msg Hmsg. pose proof (main_ok pil args im w _ Hunder Hok) as Hm.
      destruct (preview_path args) as [path|].
      * destruct Hm as (pv & _ & Hm).
        destruct (save_format pil path) as [format|].
        -- destruct Hm as (w' & Hm & _). rewrite Hm in Hmsg. discriminate.
        -- rewrite Hm in Hmsg. discriminate.
      * destruct Hm as (w' & Hm & _). rewrite Hm in Hmsg. discriminate.
    + intros Hp. exact (main_out pil args im w _ Hunder Hp).
Qed.



(** ** Text *)

Lemma str_parses (z : Z) :
  option_map Z.of_int (NilZero.int_of_string (str z)) = Some z.
Proof.
  unfold str. rewrite NilZero.isi.
  - simpl. rewrite DecimalZ.of_to. reflexivity.
  - destruct z as [|p|p]; simpl; try discriminate.
    intros [= H]. exact (DecimalPos.Unsigned.to_uint_nonnil p H).
  - destruct z as [|p|p]; simpl; try discriminate.
    intros [= H]. exact (DecimalPos.Unsigned.to_uint_nonnil p H).
Qed.

Lemma str_negative (z : Z) : z < 0 -> str z = "-" +:+ str (- z).
Proof.
  destruct z as [|p|p]; intros Hz; try lia.
  unfold str. simpl.
  pose proof (DecimalPos.Unsigned.to_uint_nonnil p) as Hnil.
  destruct (Pos.to_uint p); [congruence|reflexivity..].
Qed.

Lemma spaceless_app (s t : string) :
  spaceless (s +:+ t) = spaceless s && spaceless t.
Proof.
  induction s as [|c s IH]; [reflexivity|].
  rewrite app_cons. simpl. rewrite IH, andb_assoc. reflexivity.
Qed.

Lemma spaceless_uint (d : Decimal.uint) :
  spaceless (NilEmpty.string_of_uint d) = true.
Proof. induction d; simpl; auto. Qed.

Lemma spaceless_str (z : Z) : spaceless (str z) = true.
Proof.
  unfold str. destruct (Z.to_int z) as [d|d]; simpl;
    destruct d; simpl; auto using spaceless_uint.
Qed.

Lemma spaceless_offset_token (z : Z) : spaceless (offset_token z) = true.
Proof.
  unfold offset_token. destruct (z =? 0); [reflexivity|].
  rewrite spaceless_app, spaceless_str. reflexivity.
Qed.

Lemma split_spaces_nonempty (s : string) : split_spaces s <> [].
Proof.
  induction s as [|c s IH]; simpl; [discriminate|].
  destruct (Ascii.eqb c " "); [discriminate|].
  destruct (split_spaces s); discriminate.
Qed.

(** A field without spaces, followed by a space, is the first field. *)
Lemma split_spaces_field (field rest : string) :
  spaceless field = true ->
  split_spaces (field +:+ " " +:+ rest) = field :: split_spaces rest.
Proof.
  induction field as [|c s IH]; intros Hs; [reflexivity|].
  simpl in Hs. apply andb_prop in Hs. destruct Hs as (Hc & Hs).
  rewrite app_cons. simpl. apply negb_true_iff in Hc. rewrite Hc.
  rewrite (IH Hs). reflexivity.
Qed.

Lemma split_spaces_last (field : string) :
  spaceless field = true -> split_spaces field = [field].
Proof.
  induction field as [|c s IH]; intros Hs; [reflexivity|].
  simpl in Hs. apply andb_prop in Hs. destruct Hs as (Hc & Hs).
  simpl. apply negb_true_iff in Hc. rewrite Hc, (IH Hs). reflexivity.
Qed.

(** The six fields of a command. *)
Lemma split_setblock (xoff y zoff : Z) (block : string) :
  spaceless block = true ->
  split_spaces (build_setblock_cmd xoff y zoff block)
  = ["setblock"; offset_token xoff; str y; offset_token zoff; block;
     "replace"].
Proof.
  intros Hb. unfold build_setblock_cmd.
  change ("setblock " +:+ ?s) with ("setblock" +:+ " " +:+ s).
  change (" replace") with (" " +:+ "replace").
  rewrite split_spaces_field by reflexivity.
  rewrite split_spaces_field by apply spaceless_offset_token.
  rewrite split_spaces_field by apply spaceless_str.
  rewrite split_spaces_field by apply spaceless_offset_token.
  rewrite split_spaces_field by exact Hb.
  rewrite split_spaces_last by reflexivity. reflexivity.
Qed.

Lemma palette_names_spaceless (b : blocktype) :
  Forall (fun name => spaceless name = true) (palette_names b).
Proof. destruct b; repeat constructor. Qed.

Lemma spaceless_block (b : blocktype) (name : string) :
  spaceless name = true ->
  spaceless ("minecraft:" +:+ name +:+ "_" +:+ blocktype_name b) = true.
Proof.
  intros Hn. rewrite !spaceless_app, Hn. destruct b; reflexivity.
Qed.

(** C7. The token of the offset 0 is ["~"] alone; the token of any other
    offset is ["~"] followed at once by [str] of the offset, a decimal
    numeral that reads back as the offset, begins with the minus sign when
    the offset is negative, and holds no space: 0 gives ["~"], 5 gives
    ["~5"], -3 gives ["~-3"]. *)
Theorem offset_token_format (offset : Z) :
  (offset = 0 -> offset_token offset = "~")
  /\ (offset <> 0 -> offset_token offset = "~" +:+ str offset)
  /\ option_map Z.of_int (NilZero.int_of_string (str offset)) = Some offset
  /\ (offset < 0 -> str offset = "-" +:+ str (- offset))
  /\ spaceless (offset_token offset) = true
  /\ offset_token 0 = "~" /\ offset_token 5 = "~5"
  /\ offset_token (-3) = "~-3".
Proof.
  split; [intros ->; reflexivity|]. split.
  { intros Hne. unfold offset_token.
    destruct (Z.eqb_spec offset 0) as [|_]; [contradiction | reflexivity]. }
  split; [apply str_parses|]. split; [apply str_negative|].
  split; [apply spaceless_offset_token|]. repeat split.
Qed.

Lemma offset_token_format_witness :
  offset_token (-12) = "~-12" /\ str (-12) = "-12".
Proof.
  destruct (offset_token_format (-12)) as (_ & Hnz & _ & Hneg & _).
  split.
  - rewrite Hnz by discriminate. reflexivity.
  - rewrite Hneg by reflexivity. reflexivity.
Defined.

(** ** The flag [--flipy] *)

Lemma split_cell_text (args : Args.t) (b : blocktype) (mapped : ndarray Z)
    (row col : nat) :
  Args.blocktype args = b ->
  cells_named (palette_names b) mapped ->
  (row < shape0 mapped)%nat -> (col < shape1 mapped)%nat ->
  exists name,
    getitem (palette_names b) (item mapped row col) = Ok name
    /\ split_spaces (cell_text args (palette_names b) mapped row col)
       = ["setblock"; offset_token (Args.startx args + Z.of_nat col);
          str (Args.starty args);
          offset_token
            (Args.startz args
             + (if Args.flipy args then Z.of_nat row
                else Z.of_nat (shape0 mapped) - 1 - Z.of_nat row));
          "minecraft:" +:+ name +:+ "_" +:+ blocktype_name b;
          "replace"].
Proof.
  intros Hb Hn Hrow Hcol. destruct (Hn row col Hrow Hcol) as (name & Hname).
  exists name. split; [exact Hname|].
  rewrite (cell_text_named _ _ _ _ _ _ Hname), Hb.
  apply split_setblock, spaceless_block.
  assert (Hin : exists j, palette_names b !! j = Some name).
  { unfold getitem in Hname.
    destruct ((0 <=? _) && _); [|discriminate].
    destruct (palette_names b !! _) eqn:E; [|discriminate].
    injection Hname as <-. eexists. exact E. }
  destruct Hin as (j & Hj).
  exact (Forall_lookup_1 _ _ _ _ (palette_names_spaceless b) Hj).
Qed.

(** C10. Two runs that differ in the flag [--flipy] alone end the same way:
    both stop with the same exception before line 145, or both reach it
    with the same resized image, the same index grid and as many commands.
    In that case the command at any position [i] is in both runs the
    command of the same cell [(row, col)], [i = row * W + col], and the two
    commands have the same six fields but for the depth token: the same
    horizontal token, the same height and the same block identifier; the
    depth token is that of [startz + row] in the run with the flag and that
    of [startz + (H - 1 - row)] in the run without. *)
Theorem flipy_changes_depth_only (pil : pillow) (args : Args.t)
    (im : image) :
  match compute pil args im,
        compute pil (with_flipy (negb (Args.flipy args)) args) im with
  | Ok c, Ok c' =>
      im_small c' = im_small c /\ mapped_idxs c' = mapped_idxs c
      /\ length (commands c') = length (commands c)
      /\ forall i cmd, commands c !! i = Some cmd ->
           exists row col cmd' xtok y ztok ztok' block,
             i = (row * width (im_small c) + col)%nat
             /\ (row < height (im_small c))%nat
             /\ (col < width (im_small c))%nat
             /\ commands c' !! i = Some cmd'
             /\ split_spaces cmd
                = ["setblock"; xtok; y; ztok; block; "replace"]
             /\ split_spaces cmd'
                = ["setblock"; xtok; y; ztok'; block; "replace"]
             /\ xtok = offset_token (Args.startx args + Z.of_nat col)
             /\ y = str (Args.starty args)
             /\ ztok
                = offset_token
                    (Args.startz args
                     + (if Args.flipy args then Z.of_nat row
                        else Z.of_nat (height (im_small c)) - 1
                             - Z.of_nat row))
             /\ ztok'
                = offset_token
                    (Args.startz args
                     + (if negb (Args.flipy args) then Z.of_nat row
                        else Z.of_nat (height (im_small c)) - 1
                             - Z.of_nat row))
  | Raise e, Raise e' => e = e'
  | _, _ => False
  end.
Proof.
  set (args' := with_flipy (negb (Args.flipy args)) args).
  unfold compute.
  change (normalize pil args' im) with (normalize pil args im).
  change (Args.blocktype args') with (Args.blocktype args).
  destruct (normalize pil args im) as [small|e] eqn:Hn; [|reflexivity].
  simpl.
  destruct (quantize_small (Args.blocktype args) small)
    as (mapped & Hq & Hs0 & Hs1 & _).
  pose proof (quantize_small_named _ _ _ Hq) as Hnamed.
  rewrite Hq. simpl.
  set (names := palette_names (Args.blocktype args)) in *.
  destruct (Z.le_gt_cases (Z.of_nat (shape0 mapped * shape1 mapped))
              (Args.max_commands args)) as [Hle|Hgt].
  - rewrite (build_commands_under args), (build_commands_under args')
      by assumption.
    simpl. split; [reflexivity|]. split; [reflexivity|].
    split; [rewrite !length_row_major; reflexivity|].
    intros i cmd Hi.
    assert (Hlt : (i < shape0 mapped * shape1 mapped)%nat).
    { apply lookup_lt_Some in Hi. rewrite length_row_major in Hi. exact Hi. }
    assert (HW : (0 < shape1 mapped)%nat) by nia.
    set (row := (i / shape1 mapped)%nat). set (col := (i mod shape1 mapped)%nat).
    assert (Hdec : i = (row * shape1 mapped + col)%nat).
    { unfold row, col. pose proof (Nat.div_mod_eq i (shape1 mapped)). lia. }
    assert (Hcol : (col < shape1 mapped)%nat)
      by (apply Nat.mod_upper_bound; lia).
    assert (Hrow : (row < shape0 mapped)%nat).
    { apply Nat.Div0.div_lt_upper_bound. lia. }
    destruct (split_cell_text args (Args.blocktype args) mapped row col
                eq_refl Hnamed Hrow Hcol) as (name & Hname & Hsplit).
    destruct (split_cell_text args' (Args.blocktype args) mapped row col
                eq_refl Hnamed Hrow Hcol) as (name' & Hname' & Hsplit').
    assert (name' = name) as -> by congruence.
    rewrite Hdec, lookup_row_major in Hi by assumption.
    injection Hi as <-.
    exists row, col, (cell_text args' names mapped row col).
    do 5 eexists. rewrite <- Hs0, <- Hs1.
    split; [exact Hdec|]. split; [exact Hrow|]. split; [exact Hcol|].
    split; [rewrite Hdec; apply lookup_row_major; assumption|].
    split; [exact Hsplit|]. split; [exact Hsplit'|].
    repeat split; reflexivity.
  - destruct (Nat.eq_dec (shape0 mapped * shape1 mapped)%nat O) as [Hz|Hnz].
    + rewrite (build_commands_empty args), (build_commands_empty args')
        by assumption.
      simpl. split; [reflexivity|]. split; [reflexivity|].
      split; [reflexivity|]. intros i cmd Hi. discriminate.
    + rewrite (build_commands_over args), (build_commands_over args')
        by (assumption || lia).
      reflexivity.
Qed.

(** ** Rounding *)

Lemma rne_div_spec (a b : Z) :
  0 < b ->
  (- b < 2 * (a - Float.rne_div a b * b) < b)
  \/ ((2 * (a - Float.rne_div a b * b) = b
       \/ 2 * (a - Float.rne_div a b * b) = - b)
      /\ Z.even (Float.rne_div a b) = true).
Proof.
  intros Hb. unfold Float.rne_div.
  pose proof (Z.div_mod a b ltac:(lia)) as Hdm.
  pose proof (Z.mod_pos_bound a b Hb) as Hr.
  destruct (Z.ltb_spec (2 * (a mod b)) b) as [Hlt|Hge].
  - left. nia.
  - destruct (Z.ltb_spec b (2 * (a mod b))) as [Hgt|Hle].
    + left. nia.
    + destruct (Z.even (a / b)) eqn:Hev.
      * right. split; [left; nia | exact Hev].
      * right. split; [right; nia|].
        rewrite Z.even_add, Hev. reflexivity.
Qed.

Lemma rne_div_unique (a b q : Z) :
  0 < b ->
  (- b < 2 * (a - q * b) < b)
  \/ ((2 * (a - q * b) = b \/ 2 * (a - q * b) = - b) /\ Z.even q = true) ->
  Float.rne_div a b = q.
Proof.
  intros Hb Hq. pose proof (rne_div_spec a b Hb) as Hr.
  set (r := Float.rne_div a b) in *.
  assert (Hclose : -1 <= r - q <= 1) by nia.
  assert (Hcases : r - q = 0 \/ r = q + 1 \/ q = r + 1) by lia.
  destruct Hcases as [Hz | [ -> | -> ] ]; [lia | exfalso..].
  - destruct Hq as [Hq|(Hq & Hev)]; [nia|].
    destruct Hr as [Hr|(Hr & Hev')]; [nia|].
    rewrite Z.even_add, Hev in Hev'. discriminate.
  - destruct Hr as [Hr|(Hr & Hev)]; [nia|].
    destruct Hq as [Hq|(Hq & Hev')]; [nia|].
    rewrite Z.even_add, Hev in Hev'. discriminate.
Qed.

Lemma rne_div_exact (k b : Z) : 0 < b -> Float.rne_div (k * b) b = k.
Proof. intros Hb. apply rne_div_unique; [exact Hb|]. left. lia. Qed.



(** Rounding the quotient first to a multiple of [1 / s] and then to an
    integer is rounding it once, when the even scale [s] exceeds the
    denominator. *)
Lemma rne_div_twice (n d t : Z) :
  0 < d -> d < 2 * t ->
  Float.rne_div (Float.rne_div (n * (2 * t)) d) (2 * t) = Float.rne_div n d.
Proof.
  intros Hd Ht.
  pose proof (rne_div_spec n d Hd) as Hq.
  set (q := Float.rne_div n d) in *.
  destruct Hq as [Hq|(Hq & Hev)].
  - pose proof (rne_div_spec (n * (2 * t)) d Hd) as Hm.
    set (m := Float.rne_div (n * (2 * t)) d) in *.
    apply rne_div_unique; [lia|]. left.
    assert (Hmd : - d <= 2 * (n * (2 * t) - m * d) <= d) by lia.
    assert (Hqd : - (d - 1) <= 2 * (n - q * d) <= d - 1) by lia.
    assert (H1 : 2 * d * (m - q * (2 * t))
                 = 2 * (n - q * d) * (2 * t) - 2 * (n * (2 * t) - m * d))
      by ring.
    split.
    + assert (- (2 * t) * d < 2 * d * (m - q * (2 * t))); [nia|nia].
    + assert (2 * d * (m - q * (2 * t)) < 2 * t * d); [nia|nia].
  - assert (Hn : exists k, n * (2 * t) = k * d
                           /\ (k - q * (2 * t) = t \/ k - q * (2 * t) = - t)).
    { destruct Hq as [Hq|Hq].
      - exists ((2 * q + 1) * t). split; [nia | left; ring].
      - exists ((2 * q - 1) * t). split; [nia | right; ring]. }
    destruct Hn as (k & Hk & Hkt). rewrite Hk, rne_div_exact by exact Hd.
    apply rne_div_unique; [lia|]. right. split; [lia | exact Hev].
Qed.

(** ** Binary64 division *)

Lemma quotient_expo_le (a d : Z) :
  Float.quotient_expo a d <= Z.max (Z.log2 a - Z.log2 d - 52) (-1074)
  /\ -1074 <= Float.quotient_expo a d.
Proof.
  unfold Float.quotient_expo.
  destruct (if 0 <=? Z.log2 a - Z.log2 d then _ else _); lia.
Qed.

Lemma true_divide_unfold (n d : Z) :
  0 < d -> n <> 0 ->
  Float.true_divide n d
  = let e := Float.quotient_expo (Z.abs n) d in
    let m := if 0 <=? e then Float.rne_div n (d * 2 ^ e)
             else Float.rne_div (n * 2 ^ (- e)) d in
    if (971 <? e) || ((e =? 971) && (2 ^ 53 <=? Z.abs m))
    then Raise OverflowError
    else Ok {| Float.mant := m; Float.expo := e |}.
Proof.
  intros Hd Hn. unfold Float.true_divide.
  destruct (Z.eqb_spec d 0) as [|_]; [lia|].
  destruct (Z.ltb_spec d 0) as [|_]; [lia|].
  destruct (Z.eqb_spec n 0) as [|_]; [lia|]. reflexivity.
Qed.

(** On integers below [2 ^ 52], [round(n / d)] is the exact quotient
    rounded half to even: rounding the quotient to a double first loses
    nothing. *)
Lemma round_true_divide (n d : Z) :
  0 < d < 2 ^ 52 -> Z.abs n < 2 ^ 52 ->
  exists q, Float.true_divide n d = Ok q
    /\ Float.round q = round_half_even n d.
Proof.
  intros Hd Hn. unfold round_half_even.
  destruct (Z.eq_dec n 0) as [->|Hnz].
  { exists {| Float.mant := 0; Float.expo := 0 |}. split.
    - unfold Float.true_divide.
      destruct (Z.eqb_spec d 0) as [|_]; [lia|].
      destruct (Z.ltb_spec d 0) as [|_]; [lia|]. reflexivity.
    - unfold Float.round. simpl. symmetry.
      apply (rne_div_exact 0 d). lia. }
  rewrite true_divide_unfold by lia. cbv zeta.
  pose proof (quotient_expo_le (Z.abs n) d) as (He & He').
  set (e := Float.quotient_expo (Z.abs n) d) in *.
  assert (Hln : Z.log2 (Z.abs n) < 52) by (apply Z.log2_lt_pow2; lia).
  assert (Hld : 0 <= Z.log2 d < 52)
    by (split; [apply Z.log2_nonneg | apply Z.log2_lt_pow2; lia]).
  assert (Hneg : 1 + Z.log2 d <= - e) by lia.
  destruct (Z.leb_spec 0 e) as [|_]; [lia|].
  destruct (Z.ltb_spec 971 e) as [|_]; [lia|].
  destruct (Z.eqb_spec e 971) as [|_]; [lia|]. simpl.
  eexists. split; [reflexivity|]. unfold Float.round. simpl.
  destruct (Z.leb_spec 0 e) as [|_]; [lia|].
  assert (Hs : 2 ^ (- e) = 2 * 2 ^ (- e - 1)).
  { rewrite <- Z.pow_succ_r by lia. f_equal. lia. }
  rewrite Hs. apply rne_div_twice; [lia|]. rewrite <- Hs.
  destruct (Z.log2_spec d ltac:(lia)) as (_ & Hlt).
  assert (2 ^ Z.succ (Z.log2 d) <= 2 ^ (- e))
    by (apply Z.pow_le_mono_r; lia).
  lia.
Qed.


(** ** The size of the grid *)

Lemma resize_lanczos_cases (pil : pillow) (im : image) (xsize ysize : Z) :
  image_ok im ->
  ((xsize <= 0 \/ ysize <= 0) ->
     resize pil im (xsize, ysize) LANCZOS = Raise InvalidDimension)
  /\ (0 < xsize -> 0 < ysize ->
        exists small, resize pil im (xsize, ysize) LANCZOS = Ok small
          /\ Z.of_nat (width small) = xsize
          /\ Z.of_nat (height small) = ysize).
Proof.
  intros (HW & HH). unfold resize. split.
  - intros Hbad.
    destruct (Z.eqb_spec xsize (Z.of_nat (width im))) as [Hx|_];
      [destruct (Z.eqb_spec ysize (Z.of_nat (height im))) as [Hy|_]; [lia|]|];
      simpl.
    + destruct (Z.ltb_spec xsize 1); destruct (Z.ltb_spec ysize 1);
        try reflexivity; lia.
    + destruct (Z.ltb_spec xsize 1); destruct (Z.ltb_spec ysize 1);
        try reflexivity; lia.
  - intros Hx Hy.
    destruct ((xsize =? Z.of_nat (width im)) && (ysize =? Z.of_nat (height im)))
      eqn:Hsame.
    + apply andb_prop in Hsame. destruct Hsame as (Hex & Hey).
      apply Z.eqb_eq in Hex, Hey. exists im. auto.
    + destruct (Z.ltb_spec xsize 1) as [|_]; [lia|].
      destruct (Z.ltb_spec ysize 1) as [|_]; [lia|]. simpl.
      eexists. split; [reflexivity|]. simpl. lia.
Qed.



(** For sizes below [2 ^ 52], line 100 yields the integer nearest to the
    exact quotient, the even one of the two when it lies half way. *)
Lemma target_h_nearest (args : Args.t) (im : image) :
  image_ok im ->
  Z.of_nat (width im) < 2 ^ 52 ->
  Z.abs (Args.width args * Z.of_nat (height im)) < 2 ^ 52 ->
  exists th,
    target_h args im = Ok th
    /\ Z.abs (2 * (Args.width args * Z.of_nat (height im)
                   - th * Z.of_nat (width im))) <= Z.of_nat (width im)
    /\ (Z.abs (2 * (Args.width args * Z.of_nat (height im)
                    - th * Z.of_nat (width im))) = Z.of_nat (width im) ->
        Z.even th = true).
Proof.
  intros (HW & HH) Hw0 Hn.
  destruct (round_true_divide (Args.width args * Z.of_nat (height im))
              (Z.of_nat (width im))) as (q & Hq & Hround); [lia | lia |].
  exists (Float.round q). unfold target_h. rewrite Hq.
  split; [reflexivity|]. rewrite Hround. unfold round_half_even.
  pose proof (rne_div_spec (Args.width args * Z.of_nat (height im))
                (Z.of_nat (width im)) ltac:(lia)) as Hspec.
  split; [lia|]. intros Htie.
  destruct Hspec as [Hin|(_ & Hev)]; [lia | exact Hev].
Qed.

(** C6. For a decoded image of [w0] by [h0] pixels and a positive requested
    width, with [w0] and [width * h0] below [2 ^ 31]: when the exact
    quotient [width * h0 / w0] is above one half, the image is resized and
    the pixel grid has exactly [width] columns and [H] rows, where [H] is
    the integer nearest to the exact quotient, [|2 * (width * h0 - H * w0)|
    <= w0], and the even one of the two nearest when the quotient lies
    half way between them; when the quotient is at most one half, the
    height rounds to 0 and [Image.resize] refuses the size. *)
Theorem normalized_grid_size (pil : pillow) (args : Args.t)
    (im : image) :
  image_ok im -> 0 < Args.width args ->
  Z.of_nat (width im) < 2 ^ 31 ->
  Args.width args * Z.of_nat (height im) < 2 ^ 31 ->
  (Z.of_nat (width im) < 2 * (Args.width args * Z.of_nat (height im)) ->
   exists small,
     normalize pil args im = Ok small
     /\ Z.of_nat (shape1 (np_array small)) = Args.width args
     /\ 0 < Z.of_nat (shape0 (np_array small))
     /\ Z.abs (2 * (Args.width args * Z.of_nat (height im)
                    - Z.of_nat (shape0 (np_array small))
                      * Z.of_nat (width im)))
        <= Z.of_nat (width im)
     /\ (Z.abs (2 * (Args.width args * Z.of_nat (height im)
                     - Z.of_nat (shape0 (np_array small))
                       * Z.of_nat (width im)))
         = Z.of_nat (width im) ->
         Z.even (Z.of_nat (shape0 (np_array small))) = true))
  /\ (2 * (Args.width args * Z.of_nat (height im)) <= Z.of_nat (width im) ->
      target_h args im = Ok 0
      /\ normalize pil args im = Raise InvalidDimension).
Proof.
  intros Him Hw Hw0 Hn. pose proof Him as (HW & HH).
  assert (H31 : 2 ^ 31 < 2 ^ 52) by (apply Z.pow_lt_mono_r; lia).
  destruct (target_h_nearest args im Him) as (th & Hth & Hnear & Htie);
    [lia | rewrite Z.abs_eq by nia; lia |].
  destruct (resize_lanczos_cases pil im (Args.width args) th Him)
    as (Hbad & Hgood).
  unfold normalize. rewrite Hth. split.
  - intros Habove.
    assert (Hpos : 0 < th) by nia.
    destruct Hgood as (small & Hs & Hsw & Hsh); [lia..|].
    exists small. simpl. rewrite Hsh.
    split; [exact Hs|]. split; [exact Hsw|]. split; [exact Hpos|].
    split; [exact Hnear | exact Htie].
  - intros Hbelow.
    assert (Hz : th = 0).
    { destruct (Z.eq_dec th 0) as [|Hne]; [assumption|exfalso].
      assert (Hcases : th <= -1 \/ th = 1 \/ 2 <= th) by lia.
      destruct Hcases as [Hc|[Hc|Hc]]; [nia| |nia].
      subst th. assert (Heq : Z.abs (2 * (Args.width args
                  * Z.of_nat (height im) - 1 * Z.of_nat (width im)))
                = Z.of_nat (width im)) by nia.
      specialize (Htie Heq). discriminate. }
    subst th. split; [reflexivity|]. apply Hbad. lia.
Qed.

Lemma quotient_expo_large (a d : Z) :
  0 < d -> 2 ^ 1024 * d <= a -> 972 <= Float.quotient_expo a d.
Proof.
  intros Hd Ha. unfold Float.quotient_expo.
  assert (Hpos : 0 < a).
  { assert (0 < 2 ^ 1024) by (apply Z.pow_pos_nonneg; lia). nia. }
  destruct (Z.log2_spec d Hd) as (Hdl & Hdu).
  destruct (Z.log2_spec a Hpos) as (Hal & Hau).
  pose proof (Z.log2_nonneg d) as Hld.
  assert (Hk : 1024 + Z.log2 d <= Z.log2 a).
  { apply Z.log2_le_pow2; [exact Hpos|].
    rewrite Z.pow_add_r by lia. nia. }
  set (k := Z.log2 a - Z.log2 d) in *.
  assert (Hk0 : 1024 <= k) by (unfold k; lia).
  destruct (Z.leb_spec 0 k) as [_|]; [|lia].
  destruct (Z.ltb_spec a (d * 2 ^ k)) as [Hlt|Hge]; [|lia].
  assert (Hk1 : 1024 < k).
  { apply (Z.pow_lt_mono_r_iff 2); [lia | lia | nia]. }
  lia.
Qed.

Lemma true_divide_overflow (n d : Z) :
  0 < d -> 2 ^ 1024 * d <= Z.abs n ->
  Float.true_divide n d = Raise OverflowError.
Proof.
  intros Hd Hn.
  assert (Hnz : n <> 0).
  { assert (0 < 2 ^ 1024) by (apply Z.pow_pos_nonneg; lia). nia. }
  rewrite true_divide_unfold by assumption. cbv zeta.
  pose proof (quotient_expo_large (Z.abs n) d Hd Hn) as He.
  destruct (Z.ltb_spec 971 (Float.quotient_expo (Z.abs n) d)) as [_|]; [|lia].
  reflexivity.
Qed.



(** * Sample runs *)

Lemma sample_image_ok : image_ok sample_image.
Proof. unfold image_ok. simpl. lia. Qed.

Lemma sample_normalize :
  normalize sample_pillow sample_args sample_image = Ok sample_small.
Proof. vm_compute. reflexivity. Qed.

Lemma limited_normalize :
  normalize sample_pillow limited_args sample_image = Ok sample_small.
Proof. vm_compute. reflexivity. Qed.


(** The end-to-end example: two pixels, two commands at depth offset 0 and
    height 64. *)
Example end_to_end :
  (c ← compute sample_pillow sample_args two_pixels; Ok (commands c))
  = Ok [ "setblock ~ 64 ~ minecraft:white_concrete replace";
         "setblock ~1 64 ~ minecraft:black_concrete replace" ]%string.
Proof. vm_compute. reflexivity. Qed.

(** Every entry of the two palettes is nearest to itself. *)
Lemma palette_entry_own_index (b : blocktype) (i : nat) (name : string)
    (c : rgb) :
  PALETTES b !! i = Some (name, c) ->
  nearest_color c (palette_colors b) = Ok i.
Proof.
  destruct b;
    do 16 (destruct i as [|i];
           [simpl; intros [= <- <-]; vm_compute; reflexivity|]);
    simpl; discriminate.
Qed.

Lemma command_limit_witness :
  main sample_pillow limited_args sample_image sample_world
  = (sample_world, Raise (SystemExit (limit_message limited_args))).
Proof.
  apply (command_limit sample_pillow limited_args sample_image sample_small
           sample_world).
  - unfold image_ok. simpl. lia.
  - vm_compute. reflexivity.
  - vm_compute. reflexivity.
Defined.

Lemma command_shape_witness :
  exists c xtok ytok ztok,
    compute sample_pillow offset_args sample_image = Ok c
    /\ commands c !! 1%nat
       = Some ("setblock " +:+ xtok +:+ " " +:+ ytok +:+ " " +:+ ztok
                 +:+ " minecraft:black_wool replace")
    /\ token_of xtok 0 /\ numeral_of ytok (-60) /\ token_of ztok 7.
Proof.
  destruct (command_shape sample_pillow offset_args sample_image sample_small
              0 1)
    as (c & i & name & color & xtok & ytok & ztok & family
        & Hc & Hi & Hpal & Hcmd & Hx & Hy & Hz & Hf & _).
  - vm_compute. reflexivity.
  - vm_compute. discriminate.
  - vm_compute. lia.
  - vm_compute. lia.
  - exists c, xtok, ytok, ztok. split; [exact Hc|].
    vm_compute in Hi. injection Hi as <-.
    vm_compute in Hpal. injection Hpal as <- <-.
    simpl in Hf. subst family.
    split; [exact Hcmd|]. split; [exact Hx|]. split; [exact Hy | exact Hz].
Defined.




Lemma normalized_grid_size_witness :
  exists small,
    normalize sample_pillow odd_width_args sample_image = Ok small
    /\ Z.of_nat (shape1 (np_array small)) = 5
    /\ Z.of_nat (shape0 (np_array small)) = 2.
Proof.
  destruct (normalized_grid_size sample_pillow odd_width_args sample_image)
    as (Habove & _).
  - unfold image_ok. simpl. lia.
  - simpl. lia.
  - vm_compute. reflexivity.
  - vm_compute. reflexivity.
  - destruct Habove as (small & Hs & Hw & Hpos & Hnear & Htie).
    + vm_compute. reflexivity.
    + exists small. split; [exact Hs|]. split; [exact Hw|].
      simpl Args.width in Hnear, Htie. simpl height in Hnear, Htie.
      simpl width in Hnear, Htie.
      change (Z.of_nat 2) with 2 in Hnear, Htie.
      change (Z.of_nat 4) with 4 in Hnear, Htie.
      assert (Hcases : Z.of_nat (shape0 (np_array small)) = 2
                       \/ Z.of_nat (shape0 (np_array small)) = 3) by lia.
      destruct Hcases as [H2|H3]; [exact H2|].
      rewrite H3 in Htie. specialize (Htie eq_refl). discriminate.
Defined.


Lemma quantize_deterministic_witness :
  exists m1 m2,
    quantize (np_array sample_small) (palette_colors concrete) = Ok m1
    /\ quantize (np_array two_pixels) (palette_colors concrete) = Ok m2
    /\ item m1 0%nat 1%nat = item m2 0%nat 1%nat.
Proof.
  destruct (quantize_deterministic (np_array sample_small)
              (np_array two_pixels) (palette_colors concrete))
    as (m1 & m2 & H1 & H2 & _ & _ & _ & _ & Hcells).
  - vm_compute. repeat constructor; discriminate.
  - discriminate.
  - vm_compute. discriminate.
  - vm_compute. reflexivity.
  - vm_compute. reflexivity.
  - intros [|y] [|[|x]] Hy Hx; vm_compute in Hy, Hx; try lia; reflexivity.
  - exists m1, m2. split; [exact H1|]. split; [exact H2|].
    apply Hcells; vm_compute; lia.
Defined.

(** A pixel at the same distance from both entries of a palette gets the
    first. *)
Example equidistant_first :
  nearest_color (10, 10, 10) [(0, 10, 10); (20, 10, 10)] = Ok O.
Proof. vm_compute. reflexivity. Qed.

(** [round] sends a tie to the even neighbour: a width of 5 on an image of
    2 by 1 pixels gives a height of 2. *)
Example round_ties_to_even :
  (q ← Float.true_divide (5 * 1) 2; Ok (Float.round q)) = Ok 2
  /\ round_half_even 5 2 = 2 /\ round_half_even 7 2 = 4.
Proof. vm_compute. auto. Qed.

(** On integers that are doubles themselves, [Float.true_divide] is the
    IEEE 754 division of the Standard Library, subnormal quotients
    included. *)
Example true_divide_is_SFdiv :
  forallb (fun p : Z * Z => agrees_with_SFdiv p.1 p.2)
    [ (1, 3); (2, 3); (5, 2); (7, 2); (-7, 2); (1, 10); (64 * 480, 640);
      (123456789, 987); (0, 5); (2 ^ 52 - 1, 3); (2 ^ 52 + 1, 2);
      (2 ^ 53 - 1, 2 ^ 53 - 3); (1, 2 ^ 60); (2 ^ 61, 3);
      (-999999999999, 7); (2 ^ 40 + 1, 2 ^ 20 + 1); (4503599627370497, 2);
      (1, 2 ^ 1000); (3, 2 ^ 1023); (2 ^ 1000, 3); (2 ^ 1023, 2 ^ 53 - 1);
      (1, 2 ^ 1023) ]
  = true.
Proof. vm_compute. reflexivity. Qed.

(** * Further properties *)

(** ** Tokens and commands read back *)

Lemma parse_int_str (z : Z) : parse_int (str z) = Some z.
Proof. apply str_parses. Qed.

Lemma str_nonempty (z : Z) : String.eqb (str z) EmptyString = false.
Proof.
  destruct (String.eqb_spec (str z) EmptyString) as [E|_]; [|reflexivity].
  pose proof (parse_int_str z) as H. rewrite E in H. discriminate.
Qed.

Lemma parse_offset_token_of (z : Z) :
  parse_offset_token (offset_token z) = Some z.
Proof.
  unfold offset_token. destruct (Z.eqb_spec z 0) as [->|Hne]; [reflexivity|].
  change ("~" +:+ str z) with (String "~" (str z)).
  unfold parse_offset_token. rewrite Ascii.eqb_refl, str_nonempty.
  apply parse_int_str.
Qed.

(** X1. A coordinate token reads back as the offset it was made from, so
    that two different offsets never get the same token. *)
Theorem offset_token_round_trip (offset : Z) :
  parse_offset_token (offset_token offset) = Some offset
  /\ forall offset', offset_token offset = offset_token offset' ->
       offset = offset'.
Proof.
  split; [apply parse_offset_token_of|].
  intros offset' Heq.
  pose proof (parse_offset_token_of offset) as H.
  rewrite Heq, parse_offset_token_of in H. congruence.
Qed.

Lemma parse_setblock_of (xoff y zoff : Z) (block : string) :
  spaceless block = true ->
  parse_setblock (build_setblock_cmd xoff y zoff block)
  = Some (xoff, y, zoff, block).
Proof.
  intros Hb. unfold parse_setblock. rewrite split_setblock by exact Hb.
  simpl. rewrite !parse_offset_token_of, parse_int_str. reflexivity.
Qed.

(** X2. A command built for a block name without spaces has exactly six
    fields and reads back as the offsets, the height and the block it was
    built from; two commands are equal only if all four agree. *)
Theorem build_setblock_cmd_round_trip (xoff y zoff : Z) (block : string) :
  spaceless block = true ->
  length (split_spaces (build_setblock_cmd xoff y zoff block)) = 6%nat
  /\ parse_setblock (build_setblock_cmd xoff y zoff block)
     = Some (xoff, y, zoff, block)
  /\ forall xoff' y' zoff' block',
       spaceless block' = true ->
       build_setblock_cmd xoff y zoff block
       = build_setblock_cmd xoff' y' zoff' block' ->
       xoff = xoff' /\ y = y' /\ zoff = zoff' /\ block = block'.
Proof.
  intros Hb. split; [rewrite split_setblock by exact Hb; reflexivity|].
  split; [apply parse_setblock_of, Hb|].
  intros xoff' y' zoff' block' Hb' Heq.
  pose proof (parse_setblock_of xoff y zoff block Hb) as H.
  rewrite Heq, parse_setblock_of in H by exact Hb'.
  injection H as -> -> -> ->. auto.
Qed.

Lemma build_setblock_cmd_round_trip_witness :
  parse_setblock (build_setblock_cmd 3 64 (-2) "minecraft:red_wool")
  = Some (3, 64, -2, "minecraft:red_wool"%string).
Proof.
  apply (build_setblock_cmd_round_trip 3 64 (-2) "minecraft:red_wool").
  reflexivity.
Defined.

(** ** Lines *)

Lemma lacks_app (c : ascii) (s t : string) :
  lacks c (s +:+ t) = lacks c s && lacks c t.
Proof.
  induction s as [|a s IH]; [reflexivity|].
  rewrite app_cons. simpl. rewrite IH, andb_assoc. reflexivity.
Qed.

Lemma lacks_newline_uint (d : Decimal.uint) :
  lacks newline (NilEmpty.string_of_uint d) = true.
Proof. induction d; simpl; auto. Qed.

Lemma lacks_newline_str (z : Z) : lacks newline (str z) = true.
Proof.
  unfold str. destruct (Z.to_int z) as [d|d]; simpl;
    destruct d; simpl; auto using lacks_newline_uint.
Qed.

Lemma lacks_newline_offset_token (z : Z) :
  lacks newline (offset_token z) = true.
Proof.
  unfold offset_token. destruct (z =? 0); [reflexivity|].
  rewrite lacks_app, lacks_newline_str. reflexivity.
Qed.

Lemma lacks_newline_setblock (xoff y zoff : Z) (block : string) :
  lacks newline block = true ->
  lacks newline (build_setblock_cmd xoff y zoff block) = true.
Proof.
  intros Hb. unfold build_setblock_cmd.
  rewrite !lacks_app, !lacks_newline_offset_token, lacks_newline_str, Hb.
  reflexivity.
Qed.

Lemma palette_names_lack_newline (b : blocktype) :
  Forall (fun name => lacks newline name = true) (palette_names b).
Proof. destruct b; repeat constructor. Qed.

Lemma read_lines_line (line rest : string) :
  lacks newline line = true ->
  read_lines (line +:+ nl +:+ rest) = line :: read_lines rest.
Proof.
  induction line as [|c s IH]; intros Hl; [reflexivity|].
  simpl in Hl. apply andb_prop in Hl. destruct Hl as (Hc & Hs).
  rewrite app_cons. simpl. apply negb_true_iff in Hc. rewrite Hc.
  rewrite (IH Hs). reflexivity.
Qed.

Lemma read_lines_unlines (cmds : list string) :
  Forall (fun cmd => lacks newline cmd = true) cmds ->
  read_lines (unlines cmds) = cmds.
Proof.
  induction 1 as [|cmd cmds Hcmd _ IH]; [reflexivity|].
  simpl. rewrite read_lines_line by exact Hcmd. rewrite IH. reflexivity.
Qed.

(** X3. [make_mcfunction] writes a file whose lines, read back, are the
    commands it was given, in order, when no command holds a newline; it
    touches no other file and prints one line that reports their
    number. *)
Theorem make_mcfunction_round_trip (cmds : list string) (out_path : string)
    (w : world) :
  Forall (fun cmd => lacks newline cmd = true) cmds ->
  exists content,
    files (make_mcfunction cmds out_path w) !! out_path
    = Some (TextFile content)
    /\ read_lines content = cmds
    /\ (forall p, p <> out_path ->
          files (make_mcfunction cmds out_path w) !! p = files w !! p)
    /\ stdout (make_mcfunction cmds out_path w)
       = stdout w ++ ["Saved " +:+ str (Z.of_nat (length cmds))
                        +:+ " commands to " +:+ out_path].
Proof.
  intros Hcmds. exists (unlines cmds).
  split; [apply make_mcfunction_out|].
  split; [apply read_lines_unlines, Hcmds|].
  split; [intros p Hp; apply make_mcfunction_other, Hp | reflexivity].
Qed.

Lemma make_mcfunction_round_trip_witness :
  exists content,
    files (make_mcfunction ["say a"; "say b"] "f.mcfunction" sample_world)
      !! "f.mcfunction"%string = Some (TextFile content)
    /\ read_lines content = ["say a"; "say b"]%string.
Proof.
  destruct (make_mcfunction_round_trip ["say a"; "say b"]%string
              "f.mcfunction" sample_world) as (content & Hf & Hl & _).
  - repeat constructor.
  - exists content. split; [exact Hf | exact Hl].
Defined.

(** ** The commands of a run read back *)

Lemma getitem_lookup {A : Type} (l : list A) (i : Z) (a : A) :
  getitem l i = Ok a -> exists j, l !! j = Some a.
Proof.
  unfold getitem. intros H.
  destruct ((0 <=? _) && _); [|discriminate].
  destruct (l !! _) eqn:E; [|discriminate].
  injection H as <-. eexists. exact E.
Qed.

(** What the command of a cell reads back as. *)
Lemma cell_text_parse (args : Args.t) (b : blocktype) (mapped : ndarray Z)
    (row col : nat) :
  Args.blocktype args = b ->
  cells_named (palette_names b) mapped ->
  (row < shape0 mapped)%nat -> (col < shape1 mapped)%nat ->
  exists name,
    getitem (palette_names b) (item mapped row col) = Ok name
    /\ parse_setblock (cell_text args (palette_names b) mapped row col)
       = Some (Args.startx args + Z.of_nat col, Args.starty args,
               Args.startz args
               + (if Args.flipy args then Z.of_nat row
                  else Z.of_nat (shape0 mapped) - 1 - Z.of_nat row),
               "minecraft:" +:+ name +:+ "_" +:+ blocktype_name b)
    /\ lacks newline (cell_text args (palette_names b) mapped row col) = true.
Proof.
  intros Hb Hn Hrow Hcol. destruct (Hn row col Hrow Hcol) as (name & Hname).
  exists name. split; [exact Hname|].
  rewrite (cell_text_named _ _ _ _ _ _ Hname), Hb.
  destruct (getitem_lookup _ _ _ Hname) as (j & Hj).
  split.
  - apply parse_setblock_of, spaceless_block.
    exact (Forall_lookup_1 _ _ _ _ (palette_names_spaceless b) Hj).
  - apply lacks_newline_setblock. rewrite !lacks_app.
    rewrite (Forall_lookup_1 _ _ _ _ (palette_names_lack_newline b) Hj).
    destruct b; reflexivity.
Qed.

(** Every command of the row-major list is the command of a cell. *)
Lemma lookup_row_major_inv (args : Args.t) (names : list string)
    (mapped : ndarray Z) (i : nat) (cmd : string) :
  row_major args names mapped !! i = Some cmd ->
  exists row col,
    (row < shape0 mapped)%nat /\ (col < shape1 mapped)%nat
    /\ i = (row * shape1 mapped + col)%nat
    /\ cmd = cell_text args names mapped row col.
Proof.
  intros Hi.
  assert (Hlt : (i < shape0 mapped * shape1 mapped)%nat).
  { apply lookup_lt_Some in Hi. rewrite length_row_major in Hi. exact Hi. }
  assert (HW : (0 < shape1 mapped)%nat) by nia.
  exists (i / shape1 mapped)%nat, (i mod shape1 mapped)%nat.
  assert (Hdec : i = (i / shape1 mapped * shape1 mapped
                      + i mod shape1 mapped)%nat).
  { pose proof (Nat.div_mod_eq i (shape1 mapped)). lia. }
  assert (Hcol : (i mod shape1 mapped < shape1 mapped)%nat)
    by (apply Nat.mod_upper_bound; lia).
  assert (Hrow : (i / shape1 mapped < shape0 mapped)%nat)
    by (apply Nat.Div0.div_lt_upper_bound; lia).
  split; [exact Hrow|]. split; [exact Hcol|]. split; [exact Hdec|].
  rewrite Hdec, lookup_row_major in Hi by assumption. congruence.
Qed.

(** X4. In a run within the command limit, the output file read back line
    by line is the list of commands, one line per cell; every line reads
    back as a [setblock] at the height [starty], with a horizontal offset
    in [startx, startx + W) and a depth offset in [startz, startz + H): the
    picture occupies exactly its [W] by [H] footprint. *)
Theorem output_file_lines (pil : pillow) (args : Args.t) (im small : image)
    (w : world) :
  normalize pil args im = Ok small ->
  Z.of_nat (width small * height small) <= Args.max_commands args ->
  preview_path args <> Some (Args.out args) ->
  exists c content,
    compute pil args im = Ok c
    /\ files (main pil args im w).1 !! Args.out args
       = Some (TextFile content)
    /\ read_lines content = commands c
    /\ length (read_lines content) = (width small * height small)%nat
    /\ forall line, line ∈ read_lines content ->
         exists xoff zoff block,
           parse_setblock line = Some (xoff, Args.starty args, zoff, block)
           /\ Args.startx args <= xoff
              < Args.startx args + Z.of_nat (width small)
           /\ Args.startz args <= zoff
              < Args.startz args + Z.of_nat (height small).
Proof.
  intros Hn Hle Hp.
  destruct (compute_after_normalize pil args im small Hn)
    as (mapped & Hq & Hs0 & Hs1 & Hunder & _).
  rewrite Nat.mul_comm in Hle. specialize (Hunder Hle).
  pose proof (quantize_small_named _ _ _ Hq) as Hnamed.
  set (names := palette_names (Args.blocktype args)) in *.
  assert (Hcells : forall i cmd, row_major args names mapped !! i = Some cmd ->
            lacks newline cmd = true
            /\ exists xoff zoff block,
                 parse_setblock cmd = Some (xoff, Args.starty args, zoff, block)
                 /\ Args.startx args <= xoff
                    < Args.startx args + Z.of_nat (width small)
                 /\ Args.startz args <= zoff
                    < Args.startz args + Z.of_nat (height small)).
  { intros i cmd Hi.
    destruct (lookup_row_major_inv _ _ _ _ _ Hi)
      as (row & col & Hrow & Hcol & _ & ->).
    destruct (cell_text_parse args (Args.blocktype args) mapped row col
                eq_refl Hnamed Hrow Hcol) as (name & _ & Hparse & Hnl).
    split; [exact Hnl|]. do 3 eexists. split; [exact Hparse|].
    rewrite <- Hs0, <- Hs1. destruct (Args.flipy args); lia. }
  assert (Hread : read_lines (unlines (row_major args names mapped))
                  = row_major args names mapped).
  { apply read_lines_unlines. apply Forall_lookup_2.
    intros i cmd Hi. apply (Hcells i cmd Hi). }
  eexists. exists (unlines (row_major args names mapped)).
  split; [exact Hunder|]. simpl.
  split; [exact (main_out pil args im w _ Hunder Hp)|].
  split; [exact Hread|]. rewrite Hread.
  split; [rewrite length_row_major; lia|].
  intros line Hin. apply list_elem_of_lookup in Hin. destruct Hin as (i & Hi).
  apply (Hcells i line Hi).
Qed.

Lemma output_file_lines_witness :
  exists c content,
    compute sample_pillow sample_args sample_image = Ok c
    /\ files (main sample_pillow sample_args sample_image sample_world).1
         !! "pixelart.mcfunction"%string = Some (TextFile content)
    /\ read_lines content = commands c.
Proof.
  destruct (output_file_lines sample_pillow sample_args sample_image
              sample_small sample_world) as (c & content & Hc & Hf & Hl & _).
  - vm_compute. reflexivity.
  - vm_compute. discriminate.
  - vm_compute. discriminate.
  - exists c, content. split; [exact Hc|]. split; [exact Hf | exact Hl].
Defined.

(** X5. In a run within the command limit no two commands place a block at
    the same position: two commands of the list with the same horizontal
    and depth offsets are the same entry of the list. *)
Theorem commands_distinct_positions (pil : pillow) (args : Args.t)
    (im small : image) :
  normalize pil args im = Ok small ->
  Z.of_nat (width small * height small) <= Args.max_commands args ->
  exists c,
    compute pil args im = Ok c
    /\ forall i j cmd cmd' xoff zoff y y' block block',
         commands c !! i = Some cmd -> commands c !! j = Some cmd' ->
         parse_setblock cmd = Some (xoff, y, zoff, block) ->
         parse_setblock cmd' = Some (xoff, y', zoff, block') ->
         i = j.
Proof.
  intros Hn Hle.
  destruct (compute_after_normalize pil args im small Hn)
    as (mapped & Hq & Hs0 & Hs1 & Hunder & _).
  rewrite Nat.mul_comm in Hle. specialize (Hunder Hle).
  pose proof (quantize_small_named _ _ _ Hq) as Hnamed.
  eexists. split; [exact Hunder|]. simpl.
  intros i j cmd cmd' xoff zoff y y' block block' Hi Hj Hp Hp'.
  destruct (lookup_row_major_inv _ _ _ _ _ Hi)
    as (row & col & Hrow & Hcol & -> & ->).
  destruct (lookup_row_major_inv _ _ _ _ _ Hj)
    as (row' & col' & Hrow' & Hcol' & -> & ->).
  destruct (cell_text_parse args (Args.blocktype args) mapped row col
              eq_refl Hnamed Hrow Hcol) as (name & _ & Hparse & _).
  destruct (cell_text_parse args (Args.blocktype args) mapped row' col'
              eq_refl Hnamed Hrow' Hcol') as (name' & _ & Hparse' & _).
  rewrite Hparse in Hp. rewrite Hparse' in Hp'.
  injection Hp as Hx _ Hz _. injection Hp' as Hx' _ Hz' _.
  assert (col = col') by lia.
  assert (row = row') by (destruct (Args.flipy args); lia).
  subst. reflexivity.
Qed.

Lemma commands_distinct_positions_witness :
  exists c,
    compute sample_pillow sample_args sample_image = Ok c
    /\ forall cmd cmd',
         commands c !! 0%nat = Some cmd -> commands c !! 1%nat = Some cmd' ->
         parse_setblock cmd <> parse_setblock cmd'.
Proof.
  destruct (commands_distinct_positions sample_pillow sample_args
              sample_image sample_small) as (c & Hc & Hdistinct).
  - vm_compute. reflexivity.
  - vm_compute. discriminate.
  - exists c. split; [exact Hc|]. intros cmd cmd' H0 H1 Heq.
    pose proof Hc as Hc'. vm_compute in Hc'. injection Hc' as <-.
    vm_compute in H0, H1. injection H0 as <-. injection H1 as <-.
    vm_compute in Heq. discriminate.
Defined.

(** ** The quantizer beyond 8-bit colors *)

(** X6. For a pixel and a palette whose channels are int16 values, whether
    their differences wrap around or not, [nearest_color] returns a
    position of the palette when the palette has an entry, and raises the
    [ValueError] of [np.argmin] on an empty palette, and only then. *)
Theorem nearest_color_index (p : rgb) (pal : list rgb) :
  is_int16 p -> Forall is_int16 pal ->
  match nearest_color p pal with
  | Ok i => (i < length pal)%nat
  | Raise e =>
      pal = []
      /\ e = ValueError "attempt to get argmin of an empty sequence"
  end.
Proof.
  intros _ _. destruct pal as [|c pal].
  - unfold nearest_color, nearest_color_acc, dists_acc, diffs.
    destruct (map3 Np.int16 p) as [[r g] b]. simpl. auto.
  - destruct (nearest_color_in_range p (c :: pal)) as (i & Hi & Hlt);
      [discriminate|].
    rewrite Hi. exact Hlt.
Qed.

Lemma nearest_color_index_witness :
  match nearest_color (30000, 0, 0) [(-30000, 0, 0); (30000, 0, 1)] with
  | Ok i => (i < 2)%nat
  | Raise _ => False
  end.
Proof.
  pose proof (nearest_color_index (30000, 0, 0)
                [(-30000, 0, 0); (30000, 0, 1)]) as H.
  destruct (nearest_color (30000, 0, 0) [(-30000, 0, 0); (30000, 0, 1)])
    as [i|e].
  - apply H; [unfold is_int16; lia | repeat constructor; lia].
  - destruct H as (Hnil & _);
      [unfold is_int16; lia | repeat constructor; lia | discriminate].
Defined.

Lemma sq_dist_bound (p c : rgb) :
  is_rgb p -> is_rgb c -> 0 <= sq_dist p c <= 195075.
Proof.
  destruct p as [[pr pg] pb], c as [[cr cg] cb].
  intros (Hr & Hg & Hb) (Hr' & Hg' & Hb'). unfold sq_dist. nia.
Qed.

(** X7. On 8-bit colors nothing wraps around in [nearest_color]: every
    distance is the exact sum of the squared channel differences, between
    0 and 195075, and the index is the same whether [np.sum] accumulates
    in 32 bits or in 64. *)
Theorem distances_do_not_wrap (acc : Z) (p : rgb) (pal : list rgb) :
  32 <= acc -> is_rgb p -> Forall is_rgb pal ->
  dists_acc acc p pal = map (sq_dist p) pal
  /\ Forall (fun d => 0 <= d <= 195075) (dists_acc acc p pal)
  /\ nearest_color_acc acc p pal = nearest_color p pal.
Proof.
  intros Ha Hp Hpal. rewrite dists_exact by assumption. split; [reflexivity|].
  split.
  - induction Hpal as [|c pal Hc _ IH]; simpl; constructor; [|exact IH].
    apply sq_dist_bound; assumption.
  - unfold nearest_color, nearest_color_acc, Np.intp_bits.
    rewrite !dists_exact by (assumption || lia). reflexivity.
Qed.

Lemma distances_do_not_wrap_witness :
  dists_acc 32 (255, 255, 255) [(0, 0, 0); (255, 0, 255)] = [195075; 65025]
  /\ nearest_color_acc 32 (255, 255, 255) [(0, 0, 0); (255, 0, 255)]
     = nearest_color (255, 255, 255) [(0, 0, 0); (255, 0, 255)].
Proof.
  destruct (distances_do_not_wrap 32 (255, 255, 255)
              [(0, 0, 0); (255, 0, 255)]) as (Hd & _ & Hn).
  - lia.
  - unfold is_rgb. lia.
  - repeat constructor; lia.
  - split; [rewrite Hd; reflexivity | exact Hn].
Defined.

(** X8. In both palettes the 16 names are pairwise distinct and so are the
    16 colors, so that a pixel that has exactly the color of a palette
    entry is mapped to that very entry. *)
Theorem palette_colors_fixed (b : blocktype) :
  NoDup (palette_names b) /\ NoDup (palette_colors b)
  /\ forall i name c,
       PALETTES b !! i = Some (name, c) ->
       nearest_color c (palette_colors b) = Ok i
       /\ palette_names b !! i = Some name.
Proof.
  split; [destruct b; apply (bool_decide_unpack _); vm_compute; exact I|].
  split.
  { rewrite palette_colors_values.
    destruct b; apply (bool_decide_unpack (NoDup (A := Z * Z * Z) _));
      vm_compute; exact I. }
  intros i name c Hi. split; [exact (palette_entry_own_index b i name c Hi)|].
  unfold palette_names. rewrite lookup_map, Hi. reflexivity.
Qed.

(** X9. The quantizer keeps every cell of [mapped_idxs] a position of the
    palette, whatever the image: the grid has the shape of the image, every
    index is at least 0 and below 16, and the look-ups of the name (line
    135) and of the color (line 152) at that index succeed. *)
Theorem mapped_idxs_in_range (b : blocktype) (small : image) :
  exists mapped,
    quantize (np_array small) (palette_colors b) = Ok mapped
    /\ shape0 mapped = height small /\ shape1 mapped = width small
    /\ forall y x, (y < height small)%nat -> (x < width small)%nat ->
         0 <= item mapped y x < 16
         /\ (exists name, getitem (palette_names b) (item mapped y x) = Ok name)
         /\ (exists color,
               getitem (palette_colors b) (item mapped y x) = Ok color).
Proof.
  destruct (quantize_small b small) as (mapped & Hq & Hs0 & Hs1 & Hcells).
  exists mapped. split; [exact Hq|]. split; [exact Hs0|]. split; [exact Hs1|].
  intros y x Hy Hx.
  destruct (Hcells y x Hy Hx)
    as (i & name & color & _ & Hv & Hname & Hgn & _ & Hgc).
  apply lookup_lt_Some in Hname. rewrite length_palette_names in Hname.
  split; [lia|]. split; eauto.
Qed.

(** ** How a run ends and what it leaves *)

Lemma true_divide_outcomes (n d : Z) :
  (exists q, Float.true_divide n d = Ok q)
  \/ Float.true_divide n d = Raise ZeroDivisionError
  \/ Float.true_divide n d = Raise OverflowError.
Proof.
  unfold Float.true_divide.
  destruct (d =? 0); [right; left; reflexivity|].
  destruct (if d <? 0 then _ else _) as [n' d'].
  destruct (n' =? 0); [left; eexists; reflexivity|].
  destruct (_ || _); [right; right; reflexivity | left; eexists; reflexivity].
Qed.

Lemma resize_outcomes (pil : pillow) (im : image) (size : Z * Z)
    (resample : filter) :
  (exists small, resize pil im size resample = Ok small)
  \/ resize pil im size resample = Raise InvalidDimension.
Proof.
  unfold resize. destruct size as [xsize ysize].
  destruct (_ && _); [left; eexists; reflexivity|].
  destruct (_ || _); [right; reflexivity | left; eexists; reflexivity].
Qed.

Lemma normalize_outcomes (pil : pillow) (args : Args.t) (im : image) :
  (exists small, normalize pil args im = Ok small)
  \/ normalize pil args im = Raise ZeroDivisionError
  \/ normalize pil args im = Raise OverflowError
  \/ normalize pil args im = Raise InvalidDimension.
Proof.
  unfold normalize, target_h.
  destruct (true_divide_outcomes
              (Args.width args * Z.of_nat (height im)) (Z.of_nat (width im)))
    as [(q & ->)|[-> | ->]]; [|right; left; reflexivity
                              |right; right; left; reflexivity].
  destruct (resize_outcomes pil im (Args.width args, Float.round q) LANCZOS)
    as [(small & Hs)|Hs].
  - left. exists small. exact Hs.
  - right. right. right. exact Hs.
Qed.

Lemma build_commands_outcomes (args : Args.t) (names : list string)
    (mapped : ndarray Z) :
  cells_named names mapped ->
  build_commands args names mapped = Ok (row_major args names mapped)
  \/ build_commands args names mapped
     = Raise (SystemExit (limit_message args)).
Proof.
  intros Hn.
  destruct (Z.le_gt_cases (Z.of_nat (shape0 mapped * shape1 mapped))
              (Args.max_commands args)) as [Hle|Hgt].
  - left. apply build_commands_under; assumption.
  - destruct (Nat.eq_dec (shape0 mapped * shape1 mapped)%nat O) as [Hz|Hnz].
    + left. rewrite build_commands_empty by assumption. f_equal.
      symmetry. apply length_zero_iff_nil. rewrite length_row_major. exact Hz.
    + right. apply build_commands_over; [assumption | lia | assumption].
Qed.

(** In the embedding, where a path can always be opened for writing and a
    size of at least 1 by 1 is always accepted, a run ends normally or in
    one of five exceptions. *)
Lemma main_ends (pil : pillow) (args : Args.t) (im : image)
    (w : world) :
  (main pil args im w).2 = Ok ()
  \/ (main pil args im w).2 = Raise ZeroDivisionError
  \/ (main pil args im w).2 = Raise OverflowError
  \/ (main pil args im w).2 = Raise InvalidDimension
  \/ (main pil args im w).2 = Raise (SystemExit (limit_message args))
  \/ (main pil args im w).2 = Raise (ValueError "unknown file extension").
Proof.
  unfold main, compute.
  destruct (normalize_outcomes pil args im)
    as [(small & ->)|[-> |[-> | ->]]]; simpl; [|tauto..].
  destruct (quantize_small (Args.blocktype args) small)
    as (mapped & Hq & Hs0 & Hs1 & _).
  rewrite Hq. simpl.
  destruct (build_commands_outcomes args
              (palette_names (Args.blocktype args)) mapped
              (quantize_small_named _ _ _ Hq)) as [-> | ->]; simpl; [|tauto].
  destruct (preview_path args) as [path|]; [|tauto].
  unfold render_preview.
  destruct (paint_preview_cells mapped (palette_colors (Args.blocktype args))
              (quantize_small_colored _ _ _ Hq)) as (pv & -> & _).
  change (Ok pv ≫= ?k) with (k pv). cbv beta.
  destruct (resize_outcomes pil pv
              (Z.of_nat (shape1 mapped) * 8, Z.of_nat (shape0 mapped) * 8)
              NEAREST) as [(big & ->)| ->]; simpl; [|tauto].
  unfold save. destruct (save_format pil path); simpl; tauto.
Qed.

(** X10. Whatever the image and the command line, a run never ends in an
    [IndexError], the palette look-ups of lines 135 and 152 being always
    in range, nor in the [ValueError] that [np.argmin] raises on an empty
    sequence. *)
Theorem main_never_index_error (pil : pillow) (args : Args.t) (im : image)
    (w : world) :
  (main pil args im w).2 <> Raise IndexError
  /\ (main pil args im w).2
     <> Raise (ValueError "attempt to get argmin of an empty sequence").
Proof.
  unfold InvalidDimension.
  destruct (main_ends pil args im w) as [H|[H|[H|[H|[H|H]]]]];
    rewrite H; split; discriminate.
Qed.

(** X11. A run writes to the output path and to the preview path and
    nowhere else: every other file is at the end what it was at the start,
    however the run ends. *)
Theorem main_writes_only (pil : pillow) (args : Args.t) (im : image)
    (w : world) (p : string) :
  p <> Args.out args -> preview_path args <> Some p ->
  files (main pil args im w).1 !! p = files w !! p.
Proof.
  intros Hout Hprev. unfold main.
  destruct (compute pil args im) as [c|e]; [|reflexivity].
  destruct (preview_path args) as [path|].
  - destruct (render_preview _ _ _) as [pv|e]; simpl.
    + unfold save. destruct (save_format pil path) as [format|]; simpl.
      * rewrite !lookup_insert_ne by congruence. reflexivity.
      * rewrite lookup_insert_ne by congruence. reflexivity.
    + rewrite lookup_insert_ne by congruence. reflexivity.
  - simpl. rewrite lookup_insert_ne by congruence. reflexivity.
Qed.

Lemma main_writes_only_witness :
  files (main sample_pillow sample_args sample_image sample_world).1
    !! "notes.txt"%string
  = files sample_world !! "notes.txt"%string.
Proof.
  apply (main_writes_only sample_pillow sample_args sample_image sample_world
           "notes.txt").
  - vm_compute. discriminate.
  - vm_compute. discriminate.
Defined.







(** ** The size of the resized image, further *)

(** X15. Asking for the width that the image already has leaves the image
    as it is: for sizes below [2 ^ 52] line 100 computes the height of the
    image again, and [Image.resize] returns the image without resampling
    it. *)
Theorem same_width_keeps_image (pil : pillow) (args : Args.t) (im : image) :
  image_ok im ->
  Args.width args = Z.of_nat (width im) ->
  Z.of_nat (width im) < 2 ^ 52 ->
  Z.of_nat (width im) * Z.of_nat (height im) < 2 ^ 52 ->
  target_h args im = Ok (Z.of_nat (height im))
  /\ normalize pil args im = Ok im.
Proof.
  intros (HW & HH) Hw Hw0 Hn.
  destruct (round_true_divide (Args.width args * Z.of_nat (height im))
              (Z.of_nat (width im))) as (q & Hq & Hround);
    [lia | rewrite Hw; nia |].
  assert (Hh : Float.round q = Z.of_nat (height im)).
  { rewrite Hround. unfold round_half_even.
    rewrite Hw, Z.mul_comm. apply rne_div_exact. lia. }
  assert (Hth : target_h args im = Ok (Z.of_nat (height im))).
  { unfold target_h. rewrite Hq. simpl. rewrite Hh. reflexivity. }
  split; [exact Hth|].
  unfold normalize. rewrite Hth. simpl. rewrite Hw, !Z.eqb_refl. reflexivity.
Qed.

Lemma same_width_keeps_image_witness :
  normalize sample_pillow same_width_args sample_image = Ok sample_image.
Proof.
  apply (same_width_keeps_image sample_pillow same_width_args sample_image).
  - unfold image_ok. simpl. lia.
  - reflexivity.
  - vm_compute. reflexivity.
  - vm_compute. reflexivity.
Defined.

(** X16. A width so large that [width * h0 / w0] reaches [2 ^ 1024] in
    magnitude is beyond the doubles: line 100 raises [OverflowError], and
    the run ends there, the world left as it was found. *)
Theorem huge_width_overflows (pil : pillow) (args : Args.t) (im : image)
    (w : world) :
  image_ok im ->
  2 ^ 1024 * Z.of_nat (width im)
  <= Z.abs (Args.width args) * Z.of_nat (height im) ->
  target_h args im = Raise OverflowError
  /\ main pil args im w = (w, Raise OverflowError).
Proof.
  intros (HW & HH) Hbig.
  assert (Hth : target_h args im = Raise OverflowError).
  { unfold target_h. rewrite true_divide_overflow; [reflexivity | lia |].
    rewrite Z.abs_mul, (Z.abs_eq (Z.of_nat (height im))) by lia. exact Hbig. }
  split; [exact Hth|].
  apply main_raise. unfold compute, normalize. rewrite Hth. reflexivity.
Qed.

Lemma huge_width_overflows_witness :
  main sample_pillow huge_width_args sample_image sample_world
  = (sample_world, Raise OverflowError).
Proof.
  apply (huge_width_overflows sample_pillow huge_width_args sample_image
           sample_world).
  - unfold image_ok. simpl. lia.
  - vm_compute. discriminate.
Defined.

(** X17. The resized image keeps the aspect ratio to within half a row:
    for sizes below [2 ^ 52] its height [H] differs from the exact
    [width * h0 / w0] by at most one half, that is
    [|2 * (width * h0 - H * w0)| <= w0]. *)
Theorem aspect_ratio_kept (pil : pillow) (args : Args.t) (im small : image) :
  image_ok im ->
  normalize pil args im = Ok small ->
  Z.of_nat (width im) < 2 ^ 52 ->
  Z.abs (Args.width args * Z.of_nat (height im)) < 2 ^ 52 ->
  Z.abs (2 * (Args.width args * Z.of_nat (height im)
              - Z.of_nat (height small) * Z.of_nat (width im)))
  <= Z.of_nat (width im).
Proof.
  intros (HW & HH) Hn Hw0 Hbound.
  destruct (normalize_size _ _ _ _ Hn) as (q & Hq & _ & Hh & _).
  destruct (round_true_divide (Args.width args * Z.of_nat (height im))
              (Z.of_nat (width im))) as (q' & Hq' & Hround); [lia | lia |].
  assert (q' = q) as -> by congruence.
  rewrite Hh, Hround. unfold round_half_even.
  pose proof (rne_div_spec (Args.width args * Z.of_nat (height im))
                (Z.of_nat (width im)) ltac:(lia)) as Hspec.
  lia.
Qed.

Lemma aspect_ratio_kept_witness :
  Z.abs (2 * (2 * 2 - Z.of_nat (height sample_small) * 4)) <= 4.
Proof.
  apply (aspect_ratio_kept sample_pillow sample_args sample_image
           sample_small).
  - unfold image_ok. simpl. lia.
  - vm_compute. reflexivity.
  - vm_compute. reflexivity.
  - vm_compute. reflexivity.
Defined.

(** ** The flag [--flipy], further *)

(** X18. The flag [--flipy] mirrors the picture along the depth axis: in
    two runs within the command limit that differ in the flag alone, the
    commands at the same position of the two lists place the same block at
    the same horizontal offset and height, and their depth offsets [z] and
    [z'] add up to [2 * startz + H - 1]. *)
Theorem flipy_mirrors_depth (pil : pillow) (args : Args.t) (im small : image) :
  normalize pil args im = Ok small ->
  Z.of_nat (width small * height small) <= Args.max_commands args ->
  exists c c',
    compute pil args im = Ok c
    /\ compute pil (with_flipy (negb (Args.flipy args)) args) im = Ok c'
    /\ forall i cmd, commands c !! i = Some cmd ->
         exists cmd' xoff y zoff zoff' block,
           commands c' !! i = Some cmd'
           /\ parse_setblock cmd = Some (xoff, y, zoff, block)
           /\ parse_setblock cmd' = Some (xoff, y, zoff', block)
           /\ zoff + zoff' = 2 * Args.startz args + Z.of_nat (height small) - 1.
Proof.
  intros Hn Hle.
  set (args' := with_flipy (negb (Args.flipy args)) args).
  destruct (compute_after_normalize pil args im small Hn)
    as (mapped & Hq & Hs0 & Hs1 & Hunder & _).
  destruct (compute_after_normalize pil args' im small Hn)
    as (mapped' & Hq' & _ & _ & Hunder' & _).
  change (Args.blocktype args') with (Args.blocktype args) in *.
  assert (mapped' = mapped) as -> by congruence.
  rewrite Nat.mul_comm in Hle.
  specialize (Hunder Hle). specialize (Hunder' Hle).
  pose proof (quantize_small_named _ _ _ Hq) as Hnamed.
  do 2 eexists. split; [exact Hunder|]. split; [exact Hunder'|]. simpl.
  intros i cmd Hi.
  destruct (lookup_row_major_inv _ _ _ _ _ Hi)
    as (row & col & Hrow & Hcol & -> & ->).
  destruct (cell_text_parse args (Args.blocktype args) mapped row col
              eq_refl Hnamed Hrow Hcol) as (name & Hname & Hparse & _).
  destruct (cell_text_parse args' (Args.blocktype args) mapped row col
              eq_refl Hnamed Hrow Hcol) as (name' & Hname' & Hparse' & _).
  assert (name' = name) as -> by congruence.
  exists (cell_text args' (palette_names (Args.blocktype args)) mapped row col).
  do 5 eexists. split; [apply lookup_row_major; assumption|].
  split; [exact Hparse|]. split; [exact Hparse'|].
  rewrite Hs0. simpl. destruct (Args.flipy args); simpl; lia.
Qed.

Lemma flipy_mirrors_depth_witness :
  exists c c',
    compute sample_pillow sample_args sample_image = Ok c
    /\ compute sample_pillow (with_flipy true sample_args) sample_image
       = Ok c'
    /\ length (commands c) = 2%nat.
Proof.
  destruct (flipy_mirrors_depth sample_pillow sample_args sample_image
              sample_small) as (c & c' & Hc & Hc' & _).
  - vm_compute. reflexivity.
  - vm_compute. discriminate.
  - exists c, c'. split; [exact Hc|]. split; [exact Hc'|].
    pose proof Hc as H. vm_compute in H. injection H as <-. reflexivity.
Defined.
